(** * The Atomix leader-election client (election.go), embedded in Rocq

    The development follows the Go file
    [vendor/github.com/atomix/atomix-go-client/pkg/client/election/election.go]:
    the [election] struct, its constructor [New], the six unary operations,
    and the goroutine that [Listen] starts.  Mutable state (the session the
    struct points to, the remote service behind the gRPC client, the logger
    and the caller's channel) is threaded explicitly. *)

From Stdlib Require Import NArith ZArith Ascii String List Lia.
From Stdlib Require Import Strings.Byte.
From stdpp Require Import base option gmap strings list.
Import ListNotations.

Local Open Scope N_scope.
Local Open Scope string_scope.
Local Open Scope list_scope.

(** ** Errors *)

(** Go's [error] values.  The code distinguishes exactly one of them,
    the sentinel [io.EOF]; every other error is opaque to it. *)
Inductive error :=
| io_EOF
| rpc_error (msg : string).

Definition is_EOF (e : error) : bool :=
  match e with io_EOF => true | rpc_error _ => false end.

(** ** Headers *)

(** Modelled from the spec: the [headers] package is not part of the
    sources.  A stream header is the pair (streamId, offset) of section 3. *)
Record StreamHeader := {
  StreamId : N;
  Offset : N
}.

(** Modelled from the spec: the SessionHeader of section 3, carried by every
    request and every response.  In a message the streams are a Go slice
    (the listener takes its length and its first element). *)
Record SessionHeader := {
  sessionId : N;
  sequenceNumber : N;
  lastIndex : N;
  streams : list StreamHeader
}.

(** ** The session (section 4.2 of the spec) *)

Module session.

(** Modelled from the spec: the [session] package is not part of the
    sources.  The store keeps the session identity, the locally incremented
    sequence number, the highest index observed and, per stream, the
    highest offset observed. *)
Record Session := {
  id : N;
  sequence : N;
  index : N;
  offsets : gmap N N
}.

Definition header_of (s : Session) : SessionHeader :=
  {| sessionId := id s;
     sequenceNumber := sequence s;
     lastIndex := index s;
     streams := (fun p => {| StreamId := fst p; Offset := snd p |})
                  <$> map_to_list (offsets s) |}.

(** Modelled from the spec: [currentHeader()] returns the header without
    mutation. *)
Definition GetHeader (s : Session) : SessionHeader := header_of s.

(** Modelled from the spec: [nextHeader()] returns a header with the
    sequence number advanced by one, and the store keeps the advanced
    number. *)
Definition NextHeader (s : Session) : SessionHeader * Session :=
  let s' := {| id := id s; sequence := sequence s + 1;
               index := index s; offsets := offsets s |} in
  (header_of s', s').

Definition merge_stream (sh : StreamHeader) (m : gmap N N) : gmap N N :=
  <[StreamId sh := N.max (default 0 (m !! StreamId sh)) (Offset sh)]> m.

(** Modelled from the spec: [updateHeader(responseHeader)] takes the
    maximum of the indices and, per stream of the response, the maximum
    of the offsets. *)
Definition UpdateHeader (h : SessionHeader) (s : Session) : Session :=
  {| id := id s; sequence := sequence s;
     index := N.max (index s) (lastIndex h);
     offsets := foldr merge_stream (offsets s) (streams h) |}.

End session.

(** ** Protocol messages
    The generated [pb] package is not part of the sources; each message has
    the fields that election.go reads or writes (they are also the columns
    of the table in section 6 of the spec). *)

Module GetLeadershipRequest.
Record t := { Header : SessionHeader }.
End GetLeadershipRequest.

Module GetLeadershipResponse.
Record t := { Header : SessionHeader; Term : N; Leader : string;
              Candidates : list string }.
End GetLeadershipResponse.

Module EnterRequest.
Record t := { Header : SessionHeader; CandidateId : string }.
End EnterRequest.

Module EnterResponse.
Record t := { Header : SessionHeader; Term : N; Leader : string;
              Candidates : list string }.
End EnterResponse.

Module WithdrawRequest.
Record t := { Header : SessionHeader; CandidateId : string }.
End WithdrawRequest.

Module WithdrawResponse.
Record t := { Header : SessionHeader }.
End WithdrawResponse.

Module AnointRequest.
Record t := { Header : SessionHeader; CandidateId : string }.
End AnointRequest.

Module AnointResponse.
Record t := { Header : SessionHeader; Succeeded : bool }.
End AnointResponse.

Module PromoteRequest.
Record t := { Header : SessionHeader; CandidateId : string }.
End PromoteRequest.

Module PromoteResponse.
Record t := { Header : SessionHeader; Succeeded : bool }.
End PromoteResponse.

Module EvictRequest.
Record t := { Header : SessionHeader; CandidateId : string }.
End EvictRequest.

Module EvictResponse.
Record t := { Header : SessionHeader; Succeeded : bool }.
End EvictResponse.

Module EventRequest.
Record t := { Header : SessionHeader }.
End EventRequest.

Module EventResponse.
Record t := { Header : SessionHeader; Term : N; Leader : string;
              Candidates : list string }.
End EventResponse.

(** What one call of [events.Recv()] returns: a possibly nil response
    pointer and a possibly nil error. *)
Record RecvResult := {
  recv_response : option EventResponse.t;
  recv_err : option error
}.

(** The server stream returned by the Events call, as the sequence of
    results its successive [Recv] calls produce. *)
Definition EventStream := list RecvResult.

(** The requests that go out on the wire, in one type, for the record of
    calls kept in the world below. *)
Inductive Rpc :=
| RpcGetLeadership (r : GetLeadershipRequest.t)
| RpcEnter (r : EnterRequest.t)
| RpcWithdraw (r : WithdrawRequest.t)
| RpcAnoint (r : AnointRequest.t)
| RpcPromote (r : PromoteRequest.t)
| RpcEvict (r : EvictRequest.t)
| RpcEvents (r : EventRequest.t).

Definition rpc_header (r : Rpc) : SessionHeader :=
  match r with
  | RpcGetLeadership q => GetLeadershipRequest.Header q
  | RpcEnter q => EnterRequest.Header q
  | RpcWithdraw q => WithdrawRequest.Header q
  | RpcAnoint q => AnointRequest.Header q
  | RpcPromote q => PromoteRequest.Header q
  | RpcEvict q => EvictRequest.Header q
  | RpcEvents q => EventRequest.Header q
  end.

(** ** Data of election.go *)

Record Term := {
  Term_Term : N;
  Term_Leader : string;
  Term_Candidates : list string
}.

Inductive ElectionEventType := EVENT_CHANGED.

Record ElectionEvent := {
  Type_ : ElectionEventType;
  Term_ : Term
}.

(** [primitive.Name]; election.go reads its [Name] field only. *)
Record Name := { Name_Name : string }.

(** The interface [pb.LeaderElectionServiceClient].  A call either fails
    with an error or yields a response, and may change the state [Σ] of
    whatever answers it. *)
Module pb.
Record LeaderElectionServiceClient (Σ : Type) := {
  GetLeadership : GetLeadershipRequest.t -> Σ -> (GetLeadershipResponse.t + error) * Σ;
  Enter : EnterRequest.t -> Σ -> (EnterResponse.t + error) * Σ;
  Withdraw : WithdrawRequest.t -> Σ -> (WithdrawResponse.t + error) * Σ;
  Anoint : AnointRequest.t -> Σ -> (AnointResponse.t + error) * Σ;
  Promote : PromoteRequest.t -> Σ -> (PromoteResponse.t + error) * Σ;
  Evict : EvictRequest.t -> Σ -> (EvictResponse.t + error) * Σ;
  Events : EventRequest.t -> Σ -> (EventStream + error) * Σ
}.
Arguments GetLeadership {Σ}.
Arguments Enter {Σ}.
Arguments Withdraw {Σ}.
Arguments Anoint {Σ}.
Arguments Promote {Σ}.
Arguments Evict {Σ}.
Arguments Events {Σ}.
End pb.

(** The struct [election].  Its [session] field is a pointer: the session
    it points to lives in the world. *)
Record election (Σ : Type) := {
  name : Name;
  client : pb.LeaderElectionServiceClient Σ;
  id : string
}.
Arguments name {Σ}.
Arguments client {Σ}.
Arguments id {Σ}.

(** ** The world the operations run in *)

(** A call on the session, as recorded in the world. *)
Inductive SessionCall :=
| CallGetHeader
| CallNextHeader
| CallUpdateHeader (h : SessionHeader).

(** The closure of the goroutine started by [Listen]: the server stream it
    reads and the caller's channel it writes to. *)
Record Goroutine := {
  task_events : EventStream;
  task_chan : N
}.

(** The receiver [e], the session it points to, the state behind the
    client, and a record of what has been done so far: the calls made on the
    session, the requests sent, and the goroutines started. *)
Record World (Σ : Type) := {
  self : election Σ;
  sess : session.Session;
  remote : Σ;
  calls : list SessionCall;
  wire : list Rpc;
  spawned : list Goroutine
}.
Arguments self {Σ}.
Arguments sess {Σ}.
Arguments remote {Σ}.
Arguments calls {Σ}.
Arguments wire {Σ}.
Arguments spawned {Σ}.

Section Operations.
Context {Σ : Type}.

(** State passing, with stdpp's monad notations. *)
Definition M (A : Type) : Type := World Σ -> A * World Σ.

#[export] Instance M_ret : MRet M := fun A a w => (a, w).
#[export] Instance M_bind : MBind M :=
  fun A B f m w => let '(a, w') := m w in f a w'.

Definition receiver : M (election Σ) := fun w => (self w, w).

Definition with_session (s : session.Session) (c : SessionCall)
    (w : World Σ) : World Σ :=
  {| self := self w; sess := s; remote := remote w;
     calls := calls w ++ [c]; wire := wire w; spawned := spawned w |}.

(** [e.session.GetHeader()] *)
Definition get_header : M SessionHeader :=
  fun w => (session.GetHeader (sess w), with_session (sess w) CallGetHeader w).

(** [e.session.NextHeader()] *)
Definition next_header : M SessionHeader :=
  fun w => let '(h, s) := session.NextHeader (sess w) in
           (h, with_session s CallNextHeader w).

(** [e.session.UpdateHeader(h)] *)
Definition update_header (h : SessionHeader) : M unit :=
  fun w => (tt, with_session (session.UpdateHeader h (sess w))
                             (CallUpdateHeader h) w).

(** A call through the client: the request goes out, the remote side
    answers and moves on. *)
Definition invoke {Req Resp : Type} (tag : Req -> Rpc)
    (f : Req -> Σ -> (Resp + error) * Σ) (request : Req) : M (Resp + error) :=
  fun w => let '(r, σ) := f request (remote w) in
           (r, {| self := self w; sess := sess w; remote := σ;
                  calls := calls w; wire := wire w ++ [tag request];
                  spawned := spawned w |}).

(** [go func() { ... }()] *)
Definition go (g : Goroutine) : M unit :=
  fun w => (tt, {| self := self w; sess := sess w; remote := remote w;
                   calls := calls w; wire := wire w;
                   spawned := spawned w ++ [g] |}).

(** *** The methods of [*election] *)

Definition Id : M string :=
  e ← receiver; mret (id e).

Definition GetTerm : M (option Term * option error) :=
  e ← receiver;
  header ← get_header;
  let request := {| GetLeadershipRequest.Header := header |} in
  r ← invoke RpcGetLeadership (pb.GetLeadership (client e)) request;
  match r with
  | inr err => mret (None, Some err)
  | inl response =>
      _ ← update_header (GetLeadershipResponse.Header response);
      mret (Some {| Term_Term := GetLeadershipResponse.Term response;
                    Term_Leader := GetLeadershipResponse.Leader response;
                    Term_Candidates := GetLeadershipResponse.Candidates response |},
            None)
  end.

Definition Enter : M (option Term * option error) :=
  e ← receiver;
  header ← next_header;
  let request := {| EnterRequest.Header := header;
                    EnterRequest.CandidateId := id e |} in
  r ← invoke RpcEnter (pb.Enter (client e)) request;
  match r with
  | inr err => mret (None, Some err)
  | inl response =>
      _ ← update_header (EnterResponse.Header response);
      mret (Some {| Term_Term := EnterResponse.Term response;
                    Term_Leader := EnterResponse.Leader response;
                    Term_Candidates := EnterResponse.Candidates response |},
            None)
  end.

Definition Leave : M (option error) :=
  e ← receiver;
  header ← next_header;
  let request := {| WithdrawRequest.Header := header;
                    WithdrawRequest.CandidateId := id e |} in
  r ← invoke RpcWithdraw (pb.Withdraw (client e)) request;
  match r with
  | inr err => mret (Some err)
  | inl response =>
      _ ← update_header (WithdrawResponse.Header response);
      mret None
  end.

Definition Anoint (id : string) : M (bool * option error) :=
  e ← receiver;
  header ← next_header;
  let request := {| AnointRequest.Header := header;
                    AnointRequest.CandidateId := id |} in
  r ← invoke RpcAnoint (pb.Anoint (client e)) request;
  match r with
  | inr err => mret (false, Some err)
  | inl response =>
      _ ← update_header (AnointResponse.Header response);
      mret (AnointResponse.Succeeded response, None)
  end.

Definition Promote (id : string) : M (bool * option error) :=
  e ← receiver;
  header ← next_header;
  let request := {| PromoteRequest.Header := header;
                    PromoteRequest.CandidateId := id |} in
  r ← invoke RpcPromote (pb.Promote (client e)) request;
  match r with
  | inr err => mret (false, Some err)
  | inl response =>
      _ ← update_header (PromoteResponse.Header response);
      mret (PromoteResponse.Succeeded response, None)
  end.

Definition Evict (id : string) : M (bool * option error) :=
  e ← receiver;
  header ← next_header;
  let request := {| EvictRequest.Header := header;
                    EvictRequest.CandidateId := id |} in
  r ← invoke RpcEvict (pb.Evict (client e)) request;
  match r with
  | inr err => mret (false, Some err)
  | inl response =>
      _ ← update_header (EvictResponse.Header response);
      mret (EvictResponse.Succeeded response, None)
  end.

(** [Listen]: the subscribe call, then the goroutine; the loop the
    goroutine runs is [listen_loop] below. *)
Definition Listen (c : N) : M (option error) :=
  e ← receiver;
  header ← next_header;
  let request := {| EventRequest.Header := header |} in
  r ← invoke RpcEvents (pb.Events (client e)) request;
  match r with
  | inr err => mret (Some err)
  | inl events =>
      _ ← go {| task_events := events; task_chan := c |};
      mret None
  end.

End Operations.

(** ** The goroutine started by [Listen] *)

(** The caller's channel [c]: what has been sent on it so far, and whether
    it has been closed. *)
Record Chan := {
  queue : list ElectionEvent;
  closed : bool
}.

(** [c <- ev]; sending on a closed channel panics (no channel comes back). *)
Definition chan_send (c : Chan) (ev : ElectionEvent) : option Chan :=
  if closed c then None
  else Some {| queue := queue c ++ [ev]; closed := closed c |}.

(** What the goroutine does, in the order it does it. *)
Inductive Action :=
| ARecv (r : RecvResult)
| ALog (e : error)
| AWait (stream : StreamHeader) (ok : bool)
| ASend (ev : ElectionEvent).

(** One turn of the loop as the environment sees it: what [Recv] returns,
    and how the channel returned by [session.WaitStream] resolves should the
    goroutine receive from it in this turn ([true]: the session signals that
    the stream has reached the offset; [false]: the channel is closed, the
    wait is cancelled). *)
Record Arrival := {
  arrives : RecvResult;
  signal : bool
}.

Record ListenerState := {
  chan : Chan;
  trace : list Action
}.

Definition record (a : Action) (st : ListenerState) : ListenerState :=
  {| chan := chan st; trace := trace st ++ [a] |}.

(** How one turn of the loop ends. *)
Inductive Turn :=
| Break
| Continue
| Panic.

Definition event_of (response : EventResponse.t) : ElectionEvent :=
  {| Type_ := EVENT_CHANGED;
     Term_ := {| Term_Term := EventResponse.Term response;
                 Term_Leader := EventResponse.Leader response;
                 Term_Candidates := EventResponse.Candidates response |} |}.

Definition deliver (ev : ElectionEvent) (st : ListenerState)
    : Turn * ListenerState :=
  match chan_send (chan st) ev with
  | None => (Panic, st)
  | Some c => (Continue, {| chan := c; trace := trace st ++ [ASend ev] |})
  end.

(** The body of the [for] loop. *)
Definition listen_turn (a : Arrival) (st : ListenerState)
    : Turn * ListenerState :=
  let st := record (ARecv (arrives a)) st in
  match recv_err (arrives a) with
  | Some io_EOF => (Break, st)
  | err =>
      let st := match err with
                | Some e => record (ALog e) st
                | None => st
                end in
      match recv_response (arrives a) with
      | None => (Panic, st)
      | Some response =>
          match streams (EventResponse.Header response) with
          | [] => deliver (event_of response) st
          | stream :: _ =>
              let ok := signal a in
              let st := record (AWait stream ok) st in
              if ok then deliver (event_of response) st
              else (Continue, st)
          end
      end
  end.

(** How a run of the goroutine over a finite schedule ends: the loop was
    left at end-of-stream, the goroutine panicked, or it is back in [Recv]
    waiting for the next message. *)
Inductive Outcome :=
| Done
| Panicked
| Receiving.

Fixpoint listen_loop (sched : list Arrival) (st : ListenerState)
    : Outcome * ListenerState :=
  match sched with
  | [] => (Receiving, st)
  | a :: rest =>
      match listen_turn a st with
      | (Break, st') => (Done, st')
      | (Panic, st') => (Panicked, st')
      | (Continue, st') => listen_loop rest st'
      end
  end.

(** ** The candidate identity: [base64.StdEncoding.EncodeToString] *)

Module base64.
Local Open Scope Z_scope.

Definition encodeStd : string :=
  "ABCDEFGHIJKLMNOPQRSTUVWXYZabcdefghijklmnopqrstuvwxyz0123456789+/".

Definition StdPadding : ascii := "="%char.

(** [enc.encode[i]] *)
Definition encode_char (i : Z) : ascii :=
  nth (Z.to_nat i) (list_ascii_of_string encodeStd) StdPadding.

Definition uint (b : byte) : Z := Z.of_N (Byte.to_N b).

(** Go's standard library encoder (RFC 4648, with padding): three source
    bytes give four characters; a remainder of one or two bytes gives two
    or three characters and padding up to four. *)
Fixpoint EncodeToString (src : list byte) : string :=
  match src with
  | [] => EmptyString
  | [s0] =>
      let val := Z.shiftl (uint s0) 16 in
      String (encode_char (Z.land (Z.shiftr val 18) 63))
        (String (encode_char (Z.land (Z.shiftr val 12) 63))
           (String StdPadding (String StdPadding EmptyString)))
  | [s0; s1] =>
      let val := Z.lor (Z.shiftl (uint s0) 16) (Z.shiftl (uint s1) 8) in
      String (encode_char (Z.land (Z.shiftr val 18) 63))
        (String (encode_char (Z.land (Z.shiftr val 12) 63))
           (String (encode_char (Z.land (Z.shiftr val 6) 63))
              (String StdPadding EmptyString)))
  | s0 :: s1 :: s2 :: rest =>
      let val := Z.lor (Z.lor (Z.shiftl (uint s0) 16) (Z.shiftl (uint s1) 8))
                       (uint s2) in
      String (encode_char (Z.land (Z.shiftr val 18) 63))
        (String (encode_char (Z.land (Z.shiftr val 12) 63))
           (String (encode_char (Z.land (Z.shiftr val 6) 63))
              (String (encode_char (Z.land val 63))
                 (EncodeToString rest))))
  end.

End base64.

(** A printable character: ASCII 0x20 to 0x7e. *)
Definition printable (c : ascii) : bool :=
  ((32 <=? N_of_ascii c) && (N_of_ascii c <=? 126))%N.

(** ** The constructor *)

(** The process the client runs in.  [uuid.NodeID()] reads the node
    identifier that the uuid package keeps for the whole process. *)
Record Process := {
  uuid_NodeID : list byte
}.

(** What a call of [New] comes to: the new struct together with the session
    it points to, an error, or a panic (indexing [partitions] out of
    range). *)
Inductive Constructed (Σ : Type) :=
| Built (e : election Σ) (s : session.Session)
| Failed (err : error)
| IndexOutOfRange.
Arguments Built {Σ}.
Arguments Failed {Σ}.
Arguments IndexOutOfRange {Σ}.

Section Constructor.
Context {Σ : Type}.

(** [util.GetPartitionIndex] and [session.New] are not part of the
    sources; [New] is read for any functions in their place.  A partition
    connection is identified with the client stub made from it. *)
Variable GetPartitionIndex : string -> nat -> nat + error.
Variable session_New :
  Name -> pb.LeaderElectionServiceClient Σ -> Σ -> (session.Session + error) * Σ.

Definition New (proc : Process) (name : Name)
    (partitions : list (pb.LeaderElectionServiceClient Σ)) (σ : Σ)
    : Constructed Σ * Σ :=
  match GetPartitionIndex (Name_Name name) (length partitions) with
  | inr err => (Failed err, σ)
  | inl i =>
      match partitions !! i with
      | None => (IndexOutOfRange, σ)
      | Some client =>
          match session_New name client σ with
          | (inr err, σ') => (Failed err, σ')
          | (inl sess, σ') =>
              let nodeId := uuid_NodeID proc in
              let candidate := base64.EncodeToString nodeId in
              (Built {| name := name; client := client; id := candidate |} sess,
               σ')
          end
      end
  end.

End Constructor.

(** ** The remote election service *)

Module service.

(** Modelled from the spec: the controller that answers the calls is an
    external collaborator and not part of the sources.  Its state is the
    current term of the election (section 3), the commit index it reports
    in response headers, and the notifications it will push on an event
    stream. *)
Record Service := {
  current : Term;
  commit : N;
  notifications : EventStream
}.

Definition present (id : string) (t : Term) : bool :=
  bool_decide (id ∈ Term_Candidates t).

(** Modelled from the spec: the term counter grows with every change of
    the leadership configuration (in the end-to-end scenario of section 8
    it goes 1, 2, 3 over two enters and a leave). *)
Definition change (t : Term) (leader : string) (candidates : list string)
    : Term :=
  {| Term_Term := Term_Term t + 1;
     Term_Leader := leader;
     Term_Candidates := candidates |}.

Definition without (id : string) (candidates : list string) : list string :=
  filter (fun c => c ≠ id) candidates.

(** Modelled from the spec: entering makes the candidate part of the
    candidates, and leader when there is none. *)
Definition enter (id : string) (t : Term) : Term :=
  if present id t then t
  else change t (if decide (Term_Leader t = "") then id else Term_Leader t)
                (Term_Candidates t ++ [id]).

(** Modelled from the spec: withdrawing a candidate that is not a member
    is not an error, simply a no-op term update; withdrawing a member
    removes it, and the next candidate in order leads when the leader
    goes (section 8: A leaves, B leads). *)
Definition withdraw (id : string) (t : Term) : Term :=
  if present id t then
    let rest := without id (Term_Candidates t) in
    change t (if decide (Term_Leader t = id) then hd "" rest
              else Term_Leader t) rest
  else t.

(** Modelled from the spec: [anoint] forces [id] to leader if present
    among the candidates; for the current leader it succeeds and leaves
    the leader unchanged.  [false], not an error, when [id] is not a
    candidate. *)
Definition anoint (id : string) (t : Term) : bool * Term :=
  if present id t then
    (true, if decide (Term_Leader t = id) then t
           else change t id (Term_Candidates t))
  else (false, t).

Fixpoint toward_front (id : string) (candidates : list string) : list string :=
  match candidates with
  | a :: ((b :: rest) as tail) =>
      if decide (b = id) then b :: a :: rest
      else a :: toward_front id tail
  | _ => candidates
  end.

(** Modelled from the spec: [promote] moves [id] one position toward the
    leader in priority order.  [false], not an error, when [id] is not a
    candidate. *)
Definition promote (id : string) (t : Term) : bool * Term :=
  if present id t then
    (true, let moved := toward_front id (Term_Candidates t) in
           if decide (moved = Term_Candidates t) then t
           else change t (Term_Leader t) moved)
  else (false, t).

(** Modelled from the spec: [evict] removes [id] entirely.  [false], not
    an error, when [id] is not a candidate. *)
Definition evict (id : string) (t : Term) : bool * Term :=
  if present id t then (true, withdraw id t) else (false, t).

(** A command is committed at the next index; the response header
    answers the request's session and sequence number at that index. *)
Definition committed (t : Term) (σ : Service) : Service :=
  {| current := t; commit := commit σ + 1;
     notifications := notifications σ |}.

Definition respond (h : SessionHeader) (σ : Service) : SessionHeader :=
  {| sessionId := sessionId h; sequenceNumber := sequenceNumber h;
     lastIndex := commit σ; streams := [] |}.

(** The service behind the client interface. *)
Definition client : pb.LeaderElectionServiceClient Service :=
  {| pb.GetLeadership := fun r σ =>
       (inl {| GetLeadershipResponse.Header :=
                 respond (GetLeadershipRequest.Header r) σ;
               GetLeadershipResponse.Term := Term_Term (current σ);
               GetLeadershipResponse.Leader := Term_Leader (current σ);
               GetLeadershipResponse.Candidates := Term_Candidates (current σ) |},
        σ);
     pb.Enter := fun r σ =>
       let σ' := committed (enter (EnterRequest.CandidateId r) (current σ)) σ in
       (inl {| EnterResponse.Header := respond (EnterRequest.Header r) σ';
               EnterResponse.Term := Term_Term (current σ');
               EnterResponse.Leader := Term_Leader (current σ');
               EnterResponse.Candidates := Term_Candidates (current σ') |},
        σ');
     pb.Withdraw := fun r σ =>
       let σ' := committed (withdraw (WithdrawRequest.CandidateId r) (current σ)) σ in
       (inl {| WithdrawResponse.Header := respond (WithdrawRequest.Header r) σ' |},
        σ');
     pb.Anoint := fun r σ =>
       let '(ok, t) := anoint (AnointRequest.CandidateId r) (current σ) in
       let σ' := committed t σ in
       (inl {| AnointResponse.Header := respond (AnointRequest.Header r) σ';
               AnointResponse.Succeeded := ok |}, σ');
     pb.Promote := fun r σ =>
       let '(ok, t) := promote (PromoteRequest.CandidateId r) (current σ) in
       let σ' := committed t σ in
       (inl {| PromoteResponse.Header := respond (PromoteRequest.Header r) σ';
               PromoteResponse.Succeeded := ok |}, σ');
     pb.Evict := fun r σ =>
       let '(ok, t) := evict (EvictRequest.CandidateId r) (current σ) in
       let σ' := committed t σ in
       (inl {| EvictResponse.Header := respond (EvictRequest.Header r) σ';
               EvictResponse.Succeeded := ok |}, σ');
     pb.Events := fun r σ => (inl (notifications σ), committed (current σ) σ)
  |}.

End service.

(** ** The operations as one family *)

(** The six unary operations of the [Election] interface. *)
Inductive Op :=
| OpGetTerm
| OpEnter
| OpLeave
| OpAnoint (id : string)
| OpPromote (id : string)
| OpEvict (id : string).

(** What an operation returns to its caller: the Go result tuples. *)
Inductive Reply :=
| ReplyTerm (t : option Term) (err : option error)
| ReplyBool (b : bool) (err : option error)
| ReplyError (err : option error).

Definition reply_error (r : Reply) : option error :=
  match r with
  | ReplyTerm _ err | ReplyBool _ err | ReplyError err => err
  end.

(** The value next to the error is the zero value of its type. *)
Definition zero_valued (r : Reply) : bool :=
  match r with
  | ReplyTerm None _ | ReplyBool false _ | ReplyError _ => true
  | _ => false
  end.

Definition mutating (op : Op) : bool :=
  match op with OpGetTerm => false | _ => true end.

Section Family.
Context {Σ : Type}.

Definition perform (op : Op) : M (Σ := Σ) Reply :=
  match op with
  | OpGetTerm => r ← GetTerm; mret (ReplyTerm r.1 r.2)
  | OpEnter => r ← Enter; mret (ReplyTerm r.1 r.2)
  | OpLeave => r ← Leave; mret (ReplyError r)
  | OpAnoint id => r ← Anoint id; mret (ReplyBool r.1 r.2)
  | OpPromote id => r ← Promote id; mret (ReplyBool r.1 r.2)
  | OpEvict id => r ← Evict id; mret (ReplyBool r.1 r.2)
  end.

(** The request of each operation (the request columns of section 6). *)
Definition expected_request (op : Op) (e : election Σ) (h : SessionHeader) : Rpc :=
  match op with
  | OpGetTerm => RpcGetLeadership {| GetLeadershipRequest.Header := h |}
  | OpEnter =>
      RpcEnter {| EnterRequest.Header := h; EnterRequest.CandidateId := id e |}
  | OpLeave =>
      RpcWithdraw {| WithdrawRequest.Header := h;
                     WithdrawRequest.CandidateId := id e |}
  | OpAnoint i =>
      RpcAnoint {| AnointRequest.Header := h; AnointRequest.CandidateId := i |}
  | OpPromote i =>
      RpcPromote {| PromoteRequest.Header := h; PromoteRequest.CandidateId := i |}
  | OpEvict i =>
      RpcEvict {| EvictRequest.Header := h; EvictRequest.CandidateId := i |}
  end.

(** What the client answers to a request in a given remote state: a
    response with its header, an open stream, or an error. *)
Inductive Answer :=
| Response (h : SessionHeader)
| Stream (events : EventStream)
| Failure (err : error).

Definition response_or_failure {Resp : Type} (hd : Resp -> SessionHeader)
    (r : (Resp + error) * Σ) : Answer :=
  match r.1 with
  | inl response => Response (hd response)
  | inr err => Failure err
  end.

Definition answer (cl : pb.LeaderElectionServiceClient Σ) (q : Rpc) (σ : Σ)
    : Answer :=
  match q with
  | RpcGetLeadership r =>
      response_or_failure GetLeadershipResponse.Header (pb.GetLeadership cl r σ)
  | RpcEnter r => response_or_failure EnterResponse.Header (pb.Enter cl r σ)
  | RpcWithdraw r => response_or_failure WithdrawResponse.Header (pb.Withdraw cl r σ)
  | RpcAnoint r => response_or_failure AnointResponse.Header (pb.Anoint cl r σ)
  | RpcPromote r => response_or_failure PromoteResponse.Header (pb.Promote cl r σ)
  | RpcEvict r => response_or_failure EvictResponse.Header (pb.Evict cl r σ)
  | RpcEvents r =>
      match (pb.Events cl r σ).1 with
      | inl events => Stream events
      | inr err => Failure err
      end
  end.

(** Anything a caller can do with the instance. *)
Inductive Command :=
| Call (op : Op)
| CallId
| CallListen (c : N).

Definition step (cmd : Command) (w : World Σ) : World Σ :=
  match cmd with
  | Call op => (perform op w).2
  | CallId => (Id w).2
  | CallListen c => (Listen c w).2
  end.

Definition run (cmds : list Command) (w : World Σ) : World Σ :=
  foldl (fun w cmd => step cmd w) w cmds.

(** The world right after construction. *)
Definition world_of (e : election Σ) (s : session.Session) (σ : Σ) : World Σ :=
  {| self := e; sess := s; remote := σ; calls := []; wire := [];
     spawned := [] |}.

End Family.

(** The three administrative calls. *)
Inductive Admin :=
| AdminAnoint
| AdminPromote
| AdminEvict.

Section AdminFamily.
Context {Σ : Type}.

Definition admin (k : Admin) (i : string) : M (Σ := Σ) (bool * option error) :=
  match k with
  | AdminAnoint => Anoint i
  | AdminPromote => Promote i
  | AdminEvict => Evict i
  end.

(** What the client answers to the request of an administrative call:
    the header and the [Succeeded] flag of its response, or its error. *)
Definition admin_answer (cl : pb.LeaderElectionServiceClient Σ) (k : Admin)
    (i : string) (h : SessionHeader) (σ : Σ) : SessionHeader * bool + error :=
  match k with
  | AdminAnoint =>
      match (pb.Anoint cl {| AnointRequest.Header := h;
                             AnointRequest.CandidateId := i |} σ).1 with
      | inl r => inl (AnointResponse.Header r, AnointResponse.Succeeded r)
      | inr err => inr err
      end
  | AdminPromote =>
      match (pb.Promote cl {| PromoteRequest.Header := h;
                              PromoteRequest.CandidateId := i |} σ).1 with
      | inl r => inl (PromoteResponse.Header r, PromoteResponse.Succeeded r)
      | inr err => inr err
      end
  | AdminEvict =>
      match (pb.Evict cl {| EvictRequest.Header := h;
                            EvictRequest.CandidateId := i |} σ).1 with
      | inl r => inl (EvictResponse.Header r, EvictResponse.Succeeded r)
      | inr err => inr err
      end
  end.
End AdminFamily.


(** ** Examples: a deployment and a listener *)

(** A client of the modelled service, for the examples: node "NodeID",
    session 1, in an election that candidate A leads. *)
Definition example_election : election service.Service :=
  {| name := {| Name_Name := "election" |};
     client := service.client;
     id := "Tm9kZUlE" |}.

Definition example_session : session.Session :=
  {| session.id := 1; session.sequence := 0; session.index := 1;
     session.offsets := ∅ |}.

Definition led_by_A : service.Service :=
  {| service.current := {| Term_Term := 1; Term_Leader := "A";
                           Term_Candidates := ["A"] |};
     service.commit := 1;
     service.notifications := [] |}.

Definition led_by_A_before_B : service.Service :=
  {| service.current := {| Term_Term := 2; Term_Leader := "A";
                           Term_Candidates := ["A"; "B"] |};
     service.commit := 2;
     service.notifications := [] |}.

(** A small deployment for the examples: the partition is chosen by the
    length of the name, and the service opens a session at its next commit
    index. *)
Definition example_index (name : string) (n : nat) : nat + error :=
  match n with
  | O => inr (rpc_error "no partitions")
  | S _ => inl (String.length name mod n)%nat
  end.

Definition example_session_New (_ : Name)
    (_ : pb.LeaderElectionServiceClient service.Service) (σ : service.Service)
    : (session.Session + error) * service.Service :=
  let σ' := service.committed (service.current σ) σ in
  (inl {| session.id := service.commit σ'; session.sequence := 0;
          session.index := service.commit σ'; session.offsets := ∅ |}, σ').

(** A process whose node identifier is the six bytes of "NodeID". *)
Definition example_process : Process :=
  {| uuid_NodeID := [x4e; x6f; x64; x65; x49; x44]%byte |}.

Definition example_New (name : string) (σ : service.Service)
    : Constructed service.Service * service.Service :=
  New example_index example_session_New example_process
      {| Name_Name := name |} [service.client] σ.

(** The reading of "never reused by two clients": two clients built one
    after the other for the same election have different identities. *)
Definition identity_unique_per_client : Prop :=
  forall (Σ : Type) GetPartitionIndex session_New proc name partitions
         (σ σ1 σ2 : Σ) e1 s1 e2 s2,
    New GetPartitionIndex session_New proc name partitions σ = (Built e1 s1, σ1) ->
    New GetPartitionIndex session_New proc name partitions σ1 = (Built e2 s2, σ2) ->
    id e1 <> id e2.

Definition empty_header : SessionHeader :=
  {| sessionId := 1; sequenceNumber := 0; lastIndex := 0; streams := [] |}.

(** The notifications of the scenario of section 8, without stream
    headers. *)
Definition changed (term : N) (leader : string) (candidates : list string)
    : EventResponse.t :=
  {| EventResponse.Header := empty_header;
     EventResponse.Term := term;
     EventResponse.Leader := leader;
     EventResponse.Candidates := candidates |}.

Definition open_chan : Chan := {| queue := []; closed := false |}.

Definition started : ListenerState := {| chan := open_chan; trace := [] |}.

Definition transport_failure : error := rpc_error "transport is closing".

(** ** Runs of calls *)

Section Accessors.
Context {Σ : Type}.

(** [func (e *election) Name() primitive.Name] *)
Definition Name' : M (Σ := Σ) Name :=
  e ← receiver; mret (name e).

End Accessors.

(** The calls that take a new header from the session. *)
Definition advances (cmd : Command) : bool :=
  match cmd with
  | Call op => mutating op
  | CallId => false
  | CallListen _ => true
  end.

(** The calls that go to the service. *)
Definition calls_service (cmd : Command) : bool :=
  match cmd with
  | CallId => false
  | _ => true
  end.

(** The channel a call hands to a goroutine, if it is a [Listen]. *)
Definition listen_chan (cmd : Command) : option N :=
  match cmd with
  | CallListen c => Some c
  | _ => None
  end.

(** The requests built with [NextHeader]: all but GetLeadership. *)
Definition mutating_rpc (q : Rpc) : bool :=
  match q with
  | RpcGetLeadership _ => false
  | _ => true
  end.

Definition seqno (q : Rpc) : N := sequenceNumber (rpc_header q).

(** [s + 1, s + 2, ..., s + n] *)
Fixpoint consecutive (s : N) (n : nat) : list N :=
  match n with
  | O => []
  | S n' => (s + 1) :: consecutive (s + 1) n'
  end.

(** ** What a run of the goroutine hands over *)

(** The event that one turn of the loop sends, if any: none at end of
    stream, none without a response, none when the wait on the first stream
    header is cancelled. *)
Definition deliverable (a : Arrival) : option ElectionEvent :=
  match recv_err (arrives a), recv_response (arrives a) with
  | Some io_EOF, _ => None
  | _, None => None
  | _, Some response =>
      match streams (EventResponse.Header response) with
      | [] => Some (event_of response)
      | _ :: _ => if signal a then Some (event_of response) else None
      end
  end.


Definition logged (tr : list Action) : list error :=
  omap (fun x => match x with ALog e => Some e | _ => None end) tr.



Definition received (response : EventResponse.t) (ok : bool) : Arrival :=
  {| arrives := {| recv_response := Some response; recv_err := None |};
     signal := ok |}.

Definition end_of_stream : Arrival :=
  {| arrives := {| recv_response := None; recv_err := Some io_EOF |};
     signal := false |}.

Definition broken : Arrival :=
  {| arrives := {| recv_response := None; recv_err := Some transport_failure |};
     signal := false |}.

Definition stopped : ListenerState :=
  {| chan := {| queue := []; closed := true |}; trace := [] |}.

(** The session and the service right after [example_New]. *)
Definition opened_session : session.Session :=
  {| session.id := 2; session.sequence := 0; session.index := 2;
     session.offsets := ∅ |}.

Definition after_open : service.Service :=
  service.committed (service.current led_by_A) led_by_A.

(** * Properties *)

(** Unfolds an operation down to the answer of the client. *)
Ltac unfold_op :=
  cbv [perform step GetTerm Enter Leave Anoint Promote Evict Listen Id
       receiver get_header next_header update_header invoke go with_session
       mbind mret M_bind M_ret answer response_or_failure session.NextHeader];
  cbn [fst snd self sess remote calls wire spawned].

Ltac client_cases :=
  match goal with
  | |- context [pb.GetLeadership ?c ?r ?s] =>
      destruct (pb.GetLeadership c r s) as [[?response | ?err] ?σ'] eqn:?
  | |- context [pb.Enter ?c ?r ?s] =>
      destruct (pb.Enter c r s) as [[?response | ?err] ?σ'] eqn:?
  | |- context [pb.Withdraw ?c ?r ?s] =>
      destruct (pb.Withdraw c r s) as [[?response | ?err] ?σ'] eqn:?
  | |- context [pb.Anoint ?c ?r ?s] =>
      destruct (pb.Anoint c r s) as [[?response | ?err] ?σ'] eqn:?
  | |- context [pb.Promote ?c ?r ?s] =>
      destruct (pb.Promote c r s) as [[?response | ?err] ?σ'] eqn:?
  | |- context [pb.Evict ?c ?r ?s] =>
      destruct (pb.Evict c r s) as [[?response | ?err] ?σ'] eqn:?
  | |- context [pb.Events ?c ?r ?s] =>
      destruct (pb.Events c r s) as [[?events | ?err] ?σ'] eqn:?
  end.

(** ** Examples of the definitions *)

Example base64_Man :
  base64.EncodeToString [x4d; x61; x6e]%byte = "TWFu".
Proof. reflexivity. Qed.

Example base64_Ma : base64.EncodeToString [x4d; x61]%byte = "TWE=".
Proof. reflexivity. Qed.

Example base64_M : base64.EncodeToString [x4d]%byte = "TQ==".
Proof. reflexivity. Qed.

Example base64_high :
  base64.EncodeToString [xfb; xff; xfe; x00; x10; x83]%byte = "+//+ABCD".
Proof. reflexivity. Qed.

(** The scenario of section 8 of the spec, on the modelled service. *)
Example service_scenario :
  let t0 := {| Term_Term := 0; Term_Leader := ""; Term_Candidates := [] |} in
  let t1 := service.enter "A" t0 in
  let t2 := service.enter "B" t1 in
  let t3 := service.withdraw "A" t2 in
  t1 = {| Term_Term := 1; Term_Leader := "A"; Term_Candidates := ["A"] |} /\
  t2 = {| Term_Term := 2; Term_Leader := "A"; Term_Candidates := ["A"; "B"] |} /\
  t3 = {| Term_Term := 3; Term_Leader := "B"; Term_Candidates := ["B"] |}.
Proof. vm_compute. repeat split. Qed.

(** ** The session store *)

(** The modelled store only moves forward, as section 3 of the spec asks:
    merging a response header never lowers the index or a stream offset. *)
Lemma merge_stream_le (sh : StreamHeader) (m : gmap N N) (k : N) :
  default 0 (m !! k) <= default 0 (session.merge_stream sh m !! k).
Proof.
  unfold session.merge_stream.
  destruct (decide (StreamId sh = k)) as [<- | Hne].
  - rewrite lookup_insert_eq. cbn. lia.
  - now rewrite lookup_insert_ne.
Qed.

Lemma UpdateHeader_forward (h : SessionHeader) (s : session.Session) :
  session.index s <= session.index (session.UpdateHeader h s) /\
  forall k : N,
    default 0 (session.offsets s !! k)
    <= default 0 (session.offsets (session.UpdateHeader h s) !! k).
Proof.
  split; [cbn; lia |].
  intros k. cbn. induction (streams h) as [| sh l IH]; cbn.
  - lia.
  - etransitivity; [exact IH | apply merge_stream_le].
Qed.

Lemma NextHeader_keeps_offsets (s : session.Session) :
  session.index (session.NextHeader s).2 = session.index s /\
  session.offsets (session.NextHeader s).2 = session.offsets s.
Proof. split; reflexivity. Qed.

(** ** Request headers *)

(** C2: every mutating operation builds the header of its request with
    [NextHeader] -- the request carries the session's sequence number plus
    one and the session keeps that number -- and so does the subscribe
    request of [Listen]; [GetTerm] builds its request with [GetHeader]: the
    request carries the current sequence number, which stays as it is. *)
Theorem mutating_requests_advance_sequence :
  (forall Σ (w : World Σ) (op : Op),
     exists (h : SessionHeader) (c : SessionCall) (rest : list SessionCall),
       wire (perform op w).2 = wire w ++ [expected_request op (self w) h] /\
       calls (perform op w).2 = calls w ++ c :: rest /\
       (rest = [] \/ exists r, rest = [CallUpdateHeader r]) /\
       if mutating op then
         c = CallNextHeader /\
         h = (session.NextHeader (sess w)).1 /\
         sequenceNumber h = session.sequence (sess w) + 1 /\
         session.sequence (sess (perform op w).2) = session.sequence (sess w) + 1
       else
         c = CallGetHeader /\
         h = session.GetHeader (sess w) /\
         sequenceNumber h = session.sequence (sess w) /\
         session.sequence (sess (perform op w).2) = session.sequence (sess w))
  /\
  (forall Σ (w : World Σ) (c : N),
     exists h : SessionHeader,
       wire (Listen c w).2 = wire w ++ [RpcEvents {| EventRequest.Header := h |}] /\
       calls (Listen c w).2 = calls w ++ [CallNextHeader] /\
       h = (session.NextHeader (sess w)).1 /\
       sequenceNumber h = session.sequence (sess w) + 1 /\
       session.sequence (sess (Listen c w).2) = session.sequence (sess w) + 1).
Proof.
  split.
  - intros Σ w op.
    destruct op; unfold_op; client_cases; cbn;
      eexists; eexists; eexists;
      (split; [reflexivity |]);
      (split; [rewrite <- ?app_assoc; reflexivity |]);
      (split; [first [left; reflexivity | right; eexists; reflexivity] |]);
      cbn; auto.
  - intros Σ w c.
    unfold_op; client_cases; cbn; eexists; repeat split; reflexivity.
Qed.

(** ** Failure of the call *)

(** C4: each of the six operations sends one request; when the client
    answers it with an error, the operation returns that very error next to
    a zero value and the session sees no [UpdateHeader] (its index and
    stream offsets are as before); when the client answers with a response,
    the operation returns no error and [UpdateHeader] is called once, with
    the header of the response. *)
Theorem rpc_failure_is_returned_unchanged :
  forall Σ (w : World Σ) (op : Op),
    let c := if mutating op then CallNextHeader else CallGetHeader in
    exists q : Rpc,
      wire (perform op w).2 = wire w ++ [q] /\
      match answer (client (self w)) q (remote w) with
      | Failure err =>
          reply_error (perform op w).1 = Some err /\
          zero_valued (perform op w).1 = true /\
          calls (perform op w).2 = calls w ++ [c] /\
          session.index (sess (perform op w).2) = session.index (sess w) /\
          session.offsets (sess (perform op w).2) = session.offsets (sess w)
      | Response h =>
          reply_error (perform op w).1 = None /\
          calls (perform op w).2 = calls w ++ [c; CallUpdateHeader h] /\
          sess (perform op w).2 =
            session.UpdateHeader h
              (if mutating op then (session.NextHeader (sess w)).2 else sess w)
      | Stream _ => False
      end.
Proof.
  intros Σ w op.
  destruct op; unfold_op; client_cases; cbn;
    eexists; (split; [reflexivity |]);
    cbv [answer response_or_failure];
    match goal with H : _ = (_, _) |- _ => rewrite H end; cbn;
    rewrite <- ?app_assoc; cbn; auto.
Qed.

(** [Listen] returns as soon as the subscribe call has answered: with the
    error of the call, or with nil and the goroutine started on the stream
    and the caller's channel.  It does not touch the response side of the
    session. *)
Lemma Listen_starts_goroutine {Σ : Type} (w : World Σ) (c : N) :
  let request := {| EventRequest.Header := (session.NextHeader (sess w)).1 |} in
  match (pb.Events (client (self w)) request (remote w)).1 with
  | inl events =>
      (Listen c w).1 = None /\
      spawned (Listen c w).2
        = spawned w ++ [ {| task_events := events; task_chan := c |} ]
  | inr err =>
      (Listen c w).1 = Some err /\ spawned (Listen c w).2 = spawned w
  end.
Proof. unfold_op. client_cases; cbn; auto. Qed.

(** ** The administrative calls and [Leave] *)

Lemma service_absent (i : string) (t : Term) :
  i ∉ Term_Candidates t -> service.present i t = false.
Proof. intros H. unfold service.present. now apply bool_decide_eq_false. Qed.

(** C5: [Anoint], [Promote] and [Evict] return the [Succeeded] flag of the
    response without an error and merge the header of the response into the
    session (an error of the call is returned next to [false]); against the
    modelled service a call for an identity that is not a candidate returns
    [false] and no error, and leaves the term as it is. *)
Theorem admin_calls_return_succeeded_flag :
  (forall Σ (w : World Σ) (k : Admin) (i : string),
     let h := (session.NextHeader (sess w)).1 in
     match admin_answer (client (self w)) k i h (remote w) with
     | inl (rh, ok) =>
         (admin k i w).1 = (ok, None) /\
         sess (admin k i w).2 =
           session.UpdateHeader rh (session.NextHeader (sess w)).2
     | inr err => (admin k i w).1 = (false, Some err)
     end)
  /\
  (forall (w : World service.Service) (k : Admin) (i : string),
     client (self w) = service.client ->
     i ∉ Term_Candidates (service.current (remote w)) ->
     (admin k i w).1 = (false, None) /\
     service.current (remote (admin k i w).2) = service.current (remote w)).
Proof.
  split.
  - intros Σ w k i.
    destruct k; cbv [admin admin_answer]; unfold_op; client_cases; cbn; auto.
  - intros w k i Hcl Habsent.
    apply service_absent in Habsent.
    destruct k; cbv [admin]; unfold_op; rewrite Hcl; cbn;
      cbv [service.anoint service.promote service.evict];
      rewrite Habsent; cbn; auto.
Qed.

Lemma admin_calls_return_succeeded_flag_witness :
  ("C" ∉ Term_Candidates (service.current led_by_A)) /\
  (admin AdminEvict "C" (world_of example_election example_session led_by_A)).1
    = (false, None).
Proof.
  assert (H : "C" ∉ Term_Candidates (service.current led_by_A))
    by (cbn; intros H; apply list_elem_of_In in H; cbn in H; intuition discriminate).
  split; [exact H |].
  exact (proj1 (proj2 admin_calls_return_succeeded_flag
                  (world_of example_election example_session led_by_A)
                  AdminEvict "C" eq_refl H)).
Defined.




(** ** The listener *)

Lemma listen_loop_app (pre post : list Arrival) (st st1 : ListenerState) :
  listen_loop pre st = (Receiving, st1) ->
  listen_loop (pre ++ post) st = listen_loop post st1.
Proof.
  revert st. induction pre as [| a pre IH]; intros st H; cbn in *.
  - congruence.
  - destruct (listen_turn a st) as [[ | | ] st']; try discriminate.
    now apply IH.
Qed.

(** The channel after a turn depends on the channel before it, not on what
    has been recorded. *)
Lemma listen_turn_chan (a : Arrival) (st st' : ListenerState) :
  chan st = chan st' ->
  (listen_turn a st).1 = (listen_turn a st').1 /\
  chan (listen_turn a st).2 = chan (listen_turn a st').2.
Proof.
  intros E. unfold listen_turn, deliver, record. cbn. rewrite E.
  destruct (recv_err (arrives a)) as [[ | msg] | ];
    destruct (recv_response (arrives a)) as [response | ]; cbn; auto;
    destruct (streams (EventResponse.Header response)); cbn;
    try destruct (signal a); cbn; auto;
    destruct (chan_send (chan st') (event_of response)); cbn; auto.
Qed.

Lemma listen_loop_chan (sched : list Arrival) (st st' : ListenerState) :
  chan st = chan st' ->
  (listen_loop sched st).1 = (listen_loop sched st').1 /\
  chan (listen_loop sched st).2 = chan (listen_loop sched st').2.
Proof.
  revert st st'. induction sched as [| a sched IH]; intros st st' E; cbn.
  - auto.
  - destruct (listen_turn_chan a st st' E) as [Ht Hc].
    destruct (listen_turn a st) as [t1 s1], (listen_turn a st') as [t2 s2].
    cbn in Ht, Hc. subst t2.
    destruct t1; cbn; auto.
Qed.

Lemma chan_send_open (c : Chan) (ev : ElectionEvent) :
  closed c = false ->
  chan_send c ev = Some {| queue := queue c ++ [ev]; closed := false |}.
Proof. intros H. unfold chan_send. now rewrite H. Qed.

(** C1: a message that arrives while the goroutine is receiving, with the
    caller's channel open, is handled as follows.  Without stream headers
    its CHANGED event is sent right after the receive.  With stream headers
    the goroutine first waits on the first of them, and sends the event
    only once the wait has resolved positively; when the wait resolves as
    cancelled nothing is sent, the loop goes on to the next message, and the
    channel ends up as if the message had never arrived. *)
Theorem events_wait_for_their_stream
    (pre post : list Arrival) (a : Arrival) (st st1 : ListenerState)
    (response : EventResponse.t) :
  listen_loop pre st = (Receiving, st1) ->
  arrives a = {| recv_response := Some response; recv_err := None |} ->
  closed (chan st1) = false ->
  let ev := event_of response in
  exists st2 : ListenerState,
    listen_turn a st1 = (Continue, st2) /\
    listen_loop (pre ++ a :: post) st = listen_loop post st2 /\
    Type_ ev = EVENT_CHANGED /\
    match streams (EventResponse.Header response) with
    | [] =>
        trace st2 = trace st1 ++ [ARecv (arrives a); ASend ev] /\
        queue (chan st2) = queue (chan st1) ++ [ev]
    | stream :: _ =>
        if signal a then
          trace st2 = trace st1 ++ [ARecv (arrives a); AWait stream true; ASend ev] /\
          queue (chan st2) = queue (chan st1) ++ [ev]
        else
          trace st2 = trace st1 ++ [ARecv (arrives a); AWait stream false] /\
          chan st2 = chan st1 /\
          chan (listen_loop (pre ++ a :: post) st).2 =
            chan (listen_loop (pre ++ post) st).2
    end.
Proof.
  intros Hpre Ha Hopen ev.
  assert (Hstep : forall st2, listen_turn a st1 = (Continue, st2) ->
            listen_loop (pre ++ a :: post) st = listen_loop post st2).
  { intros st2 H. rewrite (listen_loop_app _ _ _ _ Hpre). cbn. now rewrite H. }
  unfold listen_turn, deliver, record in *. rewrite Ha in *. cbn in *.
  destruct (streams (EventResponse.Header response)) as [| stream more].
  - rewrite (chan_send_open _ _ Hopen) in *.
    eexists. split; [reflexivity |]. split; [now apply Hstep |].
    cbn. rewrite <- app_assoc. auto.
  - destruct (signal a); cbn in *.
    + rewrite (chan_send_open _ _ Hopen) in *.
      eexists. split; [reflexivity |]. split; [now apply Hstep |].
      cbn. rewrite <- !app_assoc. auto.
    + eexists. split; [reflexivity |]. split; [now apply Hstep |].
      cbn. rewrite <- !app_assoc. repeat split.
      rewrite (Hstep _ eq_refl), (listen_loop_app _ _ _ _ Hpre).
      now apply listen_loop_chan.
Qed.

(** C8: whatever the stream delivers and however the run ends (end of
    stream, panic, or still receiving), the channel is closed after the run
    exactly if it was closed before: the goroutine only ever appends what it
    sends. *)
Theorem listener_never_closes_channel (sched : list Arrival) (st : ListenerState) :
  closed (chan (listen_loop sched st).2) = closed (chan st) /\
  exists sent, queue (chan (listen_loop sched st).2) = queue (chan st) ++ sent.
Proof.
  revert st. induction sched as [| a sched IH]; intros st; cbn.
  - split; [reflexivity | exists []; now rewrite app_nil_r].
  - assert (Hturn : closed (chan (listen_turn a st).2) = closed (chan st) /\
                    exists sent, queue (chan (listen_turn a st).2) = queue (chan st) ++ sent).
    { unfold listen_turn, deliver, record, chan_send. cbn.
      destruct (recv_err (arrives a)) as [[ | msg] | ];
        destruct (recv_response (arrives a)) as [response | ]; cbn;
        try (split; [reflexivity | exists []; now rewrite app_nil_r]);
        destruct (streams (EventResponse.Header response)); cbn;
        try destruct (signal a); cbn;
        destruct (closed (chan st)) eqn:E; cbn; rewrite ?E;
        try (split; [reflexivity | exists []; now rewrite app_nil_r]);
        (split; [reflexivity | eexists; reflexivity]). }
    destruct (listen_turn a st) as [[ | | ] st']; cbn in *; auto.
    destruct (IH st') as [Hc [sent Hq]]. destruct Hturn as [Hc' [sent' Hq']].
    split; [congruence |].
    exists (sent' ++ sent). rewrite Hq, Hq'. now rewrite app_assoc.
Qed.

Lemma events_wait_for_their_stream_witness :
  let waiting :=
    {| EventResponse.Header :=
         {| sessionId := 1; sequenceNumber := 0; lastIndex := 7;
            streams := [ {| StreamId := 1; Offset := 7 |} ] |};
       EventResponse.Term := 2; EventResponse.Leader := "A";
       EventResponse.Candidates := ["A"; "B"] |} in
  let first := {| arrives := {| recv_response := Some (changed 1 "A" ["A"]);
                                recv_err := None |};
                  signal := true |} in
  let second := {| arrives := {| recv_response := Some waiting;
                                 recv_err := None |};
                   signal := false |} in
  exists st2 : ListenerState,
    listen_turn second (listen_loop [first] started).2 = (Continue, st2) /\
    chan st2 = {| queue := [event_of (changed 1 "A" ["A"])]; closed := false |}.
Proof.
  intros waiting first second.
  destruct (events_wait_for_their_stream [first] [] second started
              (listen_loop [first] started).2 waiting
              eq_refl eq_refl eq_refl)
    as (st2 & Hturn & _ & _ & _ & Hchan & _).
  exists st2. split; [exact Hturn | exact Hchan].
Defined.

(** C9: after a receive error other than end-of-stream the turn goes on:
    the error is logged, and then the response is read all the same.  A nil
    response makes the goroutine panic; a response that is there is handled
    like any message, by its stream headers, and its event can be sent. *)
Theorem failed_receive_is_still_processed
    (a : Arrival) (st : ListenerState) (e : error) :
  recv_err (arrives a) = Some e ->
  is_EOF e = false ->
  match recv_response (arrives a) with
  | None =>
      listen_turn a st =
        (Panic, {| chan := chan st;
                   trace := trace st ++ [ARecv (arrives a); ALog e] |})
  | Some response =>
      closed (chan st) = false ->
      let ev := event_of response in
      let delivered := {| queue := queue (chan st) ++ [ev]; closed := false |} in
      match streams (EventResponse.Header response) with
      | [] =>
          listen_turn a st =
            (Continue,
             {| chan := delivered;
                trace := trace st ++ [ARecv (arrives a); ALog e; ASend ev] |})
      | stream :: _ =>
          listen_turn a st =
            if signal a then
              (Continue,
               {| chan := delivered;
                  trace := trace st ++ [ARecv (arrives a); ALog e;
                                        AWait stream true; ASend ev] |})
            else
              (Continue,
               {| chan := chan st;
                  trace := trace st ++ [ARecv (arrives a); ALog e;
                                        AWait stream false] |})
      end
  end.
Proof.
  intros Herr Hne.
  unfold listen_turn, deliver, record. rewrite Herr.
  destruct e as [| msg]; [discriminate |]. cbn.
  destruct (recv_response (arrives a)) as [response |]; cbn.
  - intros Hopen.
    destruct (streams (EventResponse.Header response)) as [| stream more]; cbn.
    + rewrite (chan_send_open _ _ Hopen). now rewrite <- !app_assoc.
    + destruct (signal a); cbn.
      * rewrite (chan_send_open _ _ Hopen). now rewrite <- !app_assoc.
      * now rewrite <- !app_assoc.
  - now rewrite <- !app_assoc.
Qed.

Lemma failed_receive_is_still_processed_witness :
  listen_turn {| arrives := {| recv_response := None;
                               recv_err := Some transport_failure |};
                 signal := true |} started
  = (Panic, {| chan := open_chan;
               trace := [ARecv {| recv_response := None;
                                  recv_err := Some transport_failure |};
                         ALog transport_failure] |}).
Proof.
  exact (failed_receive_is_still_processed
           {| arrives := {| recv_response := None;
                            recv_err := Some transport_failure |};
              signal := true |} started transport_failure eq_refl eq_refl).
Defined.

(** C3, on the code: a transport failure is logged, but the loop is not
    left.  When [Recv] returns a nil response with the failure the goroutine
    panics on the nil response; when it returns a response with the failure,
    the event of that response is sent and the next message is received and
    delivered as well. *)
Theorem listener_goes_on_after_receive_failure :
  let failed := {| recv_response := None; recv_err := Some transport_failure |} in
  let damaged := {| recv_response := Some (changed 1 "A" ["A"]);
                    recv_err := Some transport_failure |} in
  let next := {| recv_response := Some (changed 2 "A" ["A"; "B"]);
                 recv_err := None |} in
  listen_loop [ {| arrives := failed; signal := true |};
                {| arrives := next; signal := true |} ] started
  = (Panicked, {| chan := open_chan;
                  trace := [ARecv failed; ALog transport_failure] |})
  /\
  listen_loop [ {| arrives := damaged; signal := true |};
                {| arrives := next; signal := true |} ] started
  = (Receiving,
     {| chan := {| queue := [event_of (changed 1 "A" ["A"]);
                             event_of (changed 2 "A" ["A"; "B"])];
                   closed := false |};
        trace := [ARecv damaged; ALog transport_failure;
                  ASend (event_of (changed 1 "A" ["A"]));
                  ARecv next;
                  ASend (event_of (changed 2 "A" ["A"; "B"]))] |}).
Proof. split; reflexivity. Qed.

(** ** The encoding of the node identifier *)

Section Base64.
Import base64.
Local Open Scope Z_scope.

Lemma list_ind3 {A : Type} (P : list A -> Prop) :
  P [] -> (forall a, P [a]) -> (forall a b, P [a; b]) ->
  (forall a b c l, P l -> P (a :: b :: c :: l)) ->
  forall l, P l.
Proof.
  intros H0 H1 H2 H3.
  fix IH 1. intros [| a [| b [| c l]]];
    [exact H0 | apply H1 | apply H2 | apply H3, IH].
Qed.

Lemma uint_range (b : byte) : 0 <= uint b < 256.
Proof. unfold uint. pose proof (Byte.to_N_bounded b). lia. Qed.

Lemma uint_inj (a b : byte) : uint a = uint b -> a = b.
Proof.
  unfold uint. intros H. apply N2Z.inj in H.
  pose proof (Byte.of_to_N a) as Ha. pose proof (Byte.of_to_N b) as Hb.
  rewrite H in Ha. congruence.
Qed.

Lemma sextet_range (v : Z) : 0 <= Z.land v 63 < 64.
Proof.
  change 63 with (Z.ones 6). rewrite Z.land_ones by lia.
  apply Z.mod_pos_bound. lia.
Qed.

(** Shifted operands do not overlap, so [|] adds them up. *)
Lemma lor_shiftl_add (x y k : Z) :
  0 <= k -> 0 <= y < 2 ^ k -> Z.lor (Z.shiftl x k) y = x * 2 ^ k + y.
Proof.
  intros Hk Hy.
  rewrite <- Z.shiftl_mul_pow2 by assumption.
  rewrite <- Z.add_lor_land.
  assert (E : Z.land (Z.shiftl x k) y = 0).
  { apply Z.bits_inj'. intros n Hn.
    rewrite Z.land_spec, Z.bits_0.
    destruct (Z.lt_ge_cases n k) as [Hlt | Hge].
    - rewrite Z.shiftl_spec_low by assumption. reflexivity.
    - destruct (Z.eq_dec y 0) as [-> | Hy0].
      + rewrite Z.bits_0. apply andb_false_r.
      + rewrite (Z.bits_above_log2 y n); [apply andb_false_r | lia |].
        pose proof (Z.pow_le_mono_r 2 k n ltac:(lia) Hge).
        apply Z.log2_lt_pow2; lia. }
  rewrite E. lia.
Qed.

Lemma alphabet_NoDup : NoDup (list_ascii_of_string encodeStd).
Proof. apply (bool_decide_unpack _). vm_compute. reflexivity. Qed.

Lemma alphabet_no_padding : StdPadding ∉ list_ascii_of_string encodeStd.
Proof. apply (bool_decide_unpack _). vm_compute. reflexivity. Qed.

Lemma alphabet_printable :
  Forall (fun c => printable c = true) (list_ascii_of_string encodeStd).
Proof. apply (bool_decide_unpack _). vm_compute. reflexivity. Qed.

Lemma encode_char_lookup (i : Z) :
  0 <= i < 64 ->
  list_ascii_of_string encodeStd !! Z.to_nat i = Some (encode_char i).
Proof.
  intros Hi. unfold encode_char.
  destruct (nth_lookup_or_length (list_ascii_of_string encodeStd)
              (Z.to_nat i) StdPadding) as [E | Hlen]; [exact E |].
  change (Datatypes.length (list_ascii_of_string encodeStd)) with 64%nat in Hlen. lia.
Qed.

Lemma encode_char_inj (i j : Z) :
  0 <= i < 64 -> 0 <= j < 64 -> encode_char i = encode_char j -> i = j.
Proof.
  intros Hi Hj E.
  pose proof (encode_char_lookup i Hi) as Li.
  pose proof (encode_char_lookup j Hj) as Lj.
  rewrite E in Li.
  pose proof (NoDup_lookup _ _ _ _ alphabet_NoDup Li Lj). lia.
Qed.

Lemma encode_char_not_padding (i : Z) :
  0 <= i < 64 -> encode_char i <> StdPadding.
Proof.
  intros Hi E. apply alphabet_no_padding. rewrite <- E.
  eapply list_elem_of_lookup_2, encode_char_lookup, Hi.
Qed.

Lemma encode_char_printable (i : Z) : printable (encode_char i) = true.
Proof.
  unfold encode_char.
  destruct (nth_in_or_default (Z.to_nat i) (list_ascii_of_string encodeStd)
              StdPadding) as [Hin | ->]; [| reflexivity].
  pose proof alphabet_printable as H. rewrite Forall_forall in H.
  apply H. now apply list_elem_of_In.
Qed.

Lemma encoded_printable (src : list byte) :
  Forall (fun c => printable c = true)
         (list_ascii_of_string (EncodeToString src)).
Proof.
  induction src as [| a | a b | a b c rest IH] using list_ind3; cbn;
    repeat (constructor; [first [apply encode_char_printable | reflexivity] |]);
    auto.
Qed.

Lemma land_63 (v : Z) : Z.land v 63 = v mod 64.
Proof. change 63 with (Z.ones 6). now rewrite Z.land_ones by lia. Qed.

Ltac powers :=
  change (2 ^ 6) with 64 in *; change (2 ^ 8) with 256 in *;
  change (2 ^ 12) with 4096 in *; change (2 ^ 16) with 65536 in *;
  change (2 ^ 18) with 262144 in *.

Lemma val_1 (a : byte) : Z.shiftl (uint a) 16 = uint a * 65536.
Proof. rewrite Z.shiftl_mul_pow2 by lia. powers. reflexivity. Qed.

Lemma val_2 (a b : byte) :
  Z.lor (Z.shiftl (uint a) 16) (Z.shiftl (uint b) 8)
  = uint a * 65536 + uint b * 256.
Proof.
  pose proof (uint_range b).
  rewrite lor_shiftl_add; rewrite ?Z.shiftl_mul_pow2; powers; lia.
Qed.

Lemma val_3 (a b c : byte) :
  Z.lor (Z.lor (Z.shiftl (uint a) 16) (Z.shiftl (uint b) 8)) (uint c)
  = uint a * 65536 + uint b * 256 + uint c.
Proof.
  pose proof (uint_range c).
  rewrite val_2.
  transitivity (Z.lor (Z.shiftl (uint a * 256 + uint b) 8) (uint c)).
  - f_equal. rewrite Z.shiftl_mul_pow2; powers; lia.
  - rewrite lor_shiftl_add; powers; lia.
Qed.

(** Equal characters of the alphabet come from equal sextets. *)
Lemma encode_char_sextet (v w : Z) :
  encode_char (Z.land v 63) = encode_char (Z.land w 63) ->
  v mod 64 = w mod 64.
Proof.
  intros E. rewrite <- !land_63.
  apply encode_char_inj; auto using sextet_range.
Qed.

Lemma String_eq (c d : ascii) (s t : string) :
  String c s = String d t -> c = d /\ s = t.
Proof. intros E. now injection E. Qed.

Ltac characters :=
  repeat match goal with
         | H : String _ _ = String _ _ |- _ =>
             apply String_eq in H; destruct H
         end.

Ltac sextets :=
  repeat match goal with
         | H : encode_char _ = encode_char _ |- _ =>
             apply encode_char_sextet in H;
             rewrite ?Z.shiftr_div_pow2 in H by lia
         | H : encode_char (Z.land _ 63) = StdPadding |- _ =>
             exfalso; exact (encode_char_not_padding _ (sextet_range _) H)
         | H : StdPadding = encode_char (Z.land _ 63) |- _ =>
             exfalso;
             exact (encode_char_not_padding _ (sextet_range _) (eq_sym H))
         end.

Lemma EncodeToString_inj (x y : list byte) :
  EncodeToString x = EncodeToString y -> x = y.
Proof.
  revert y.
  induction x as [| a | a b | a b c rest IH] using list_ind3;
    intros [| a' [| b' [| c' rest']]]; cbn [EncodeToString];
    rewrite ?val_3, ?val_2, ?val_1; intros E;
    try discriminate E; try reflexivity;
    characters; sextets.
  - pose proof (uint_range a). pose proof (uint_range a').
    f_equal. apply uint_inj.
    powers. Z.div_mod_to_equations. lia.
  - pose proof (uint_range a). pose proof (uint_range a').
    pose proof (uint_range b). pose proof (uint_range b').
    powers.
    assert (uint a = uint a' /\ uint b = uint b') as [Ea Eb]
      by (Z.div_mod_to_equations; lia).
    apply uint_inj in Ea, Eb. now subst.
  - pose proof (uint_range a). pose proof (uint_range a').
    pose proof (uint_range b). pose proof (uint_range b').
    pose proof (uint_range c). pose proof (uint_range c').
    powers.
    assert (uint a = uint a' /\ uint b = uint b' /\ uint c = uint c')
      as (Ea & Eb & Ec) by (Z.div_mod_to_equations; lia).
    apply uint_inj in Ea, Eb, Ec. subst.
    f_equal. f_equal. f_equal. now apply IH.
Qed.
End Base64.

(** ** The candidate identity *)

Example example_New_builds :
  example_New "election" led_by_A
  = (Built example_election
       {| session.id := 2; session.sequence := 0; session.index := 2;
          session.offsets := ∅ |},
     service.committed (service.current led_by_A) led_by_A).
Proof. reflexivity. Qed.

Lemma New_Built {Σ : Type} GetPartitionIndex session_New proc name partitions
    (σ σ' : Σ) e s :
  New GetPartitionIndex session_New proc name partitions σ = (Built e s, σ') ->
  id e = base64.EncodeToString (uuid_NodeID proc).
Proof.
  unfold New. intros H.
  destruct (GetPartitionIndex _ _) as [i | err]; [| discriminate].
  destruct (partitions !! i) as [cl |]; [| discriminate].
  destruct (session_New name cl σ) as [[s0 | err] σ0]; [| discriminate].
  injection H as <- _ _. reflexivity.
Qed.

Lemma step_self {Σ : Type} (cmd : Command) (w : World Σ) :
  self (step cmd w) = self w.
Proof.
  destruct cmd as [op | | c]; [destruct op | |]; unfold_op;
    try client_cases; reflexivity.
Qed.

Lemma run_self {Σ : Type} (cmds : list Command) (w : World Σ) :
  self (run cmds w) = self w.
Proof.
  revert w. induction cmds as [| cmd cmds IH]; intros w; cbn.
  - reflexivity.
  - unfold run in IH. now rewrite IH, step_self.
Qed.

(** C7, as amended: the identity of a constructed client is the base64
    encoding of the node identifier of its process, made of printable
    characters; [Id] returns it after any sequence of calls on the
    instance; and two clients have the same identity exactly when the node
    identifiers of their processes are equal. *)
Theorem candidate_identity_is_encoded_node_id :
  forall (Σ : Type) GetPartitionIndex session_New proc name partitions
         (σ σ' : Σ) e s,
    New GetPartitionIndex session_New proc name partitions σ = (Built e s, σ') ->
    id e = base64.EncodeToString (uuid_NodeID proc) /\
    Forall (fun c => printable c = true) (list_ascii_of_string (id e)) /\
    (forall cmds : list Command, (Id (run cmds (world_of e s σ'))).1 = id e) /\
    (forall (Σ2 : Type) GetPartitionIndex2 session_New2 proc2 name2 partitions2
            (σ2 σ2' : Σ2) e2 s2,
       New GetPartitionIndex2 session_New2 proc2 name2 partitions2 σ2
         = (Built e2 s2, σ2') ->
       (id e = id e2 <-> uuid_NodeID proc = uuid_NodeID proc2)).
Proof.
  intros Σ gpi snew proc name parts σ σ' e s H.
  apply New_Built in H.
  split; [exact H |].
  split; [rewrite H; apply encoded_printable |].
  split.
  - intros cmds. unfold_op. now rewrite run_self.
  - intros Σ2 gpi2 snew2 proc2 name2 parts2 σ2 σ2' e2 s2 H2.
    apply New_Built in H2. rewrite H, H2. split.
    + apply EncodeToString_inj.
    + now intros ->.
Qed.

Lemma candidate_identity_is_encoded_node_id_witness :
  id example_election = base64.EncodeToString (uuid_NodeID example_process).
Proof.
  refine (proj1 (candidate_identity_is_encoded_node_id
                   service.Service example_index example_session_New
                   example_process {| Name_Name := "election" |}
                   [service.client] led_by_A _ example_election _ _)).
  reflexivity.
Defined.

(** C7 as stated fails: two clients constructed in one process for the same
    election, each with a session of its own, have the same identity. *)
Lemma one_identity_for_two_clients :
  exists e1 s1 σ1 e2 s2 σ2,
    example_New "election" led_by_A = (Built e1 s1, σ1) /\
    example_New "election" σ1 = (Built e2 s2, σ2) /\
    s1 <> s2 /\
    id e1 = id e2 /\
    ~ identity_unique_per_client.
Proof.
  do 6 eexists.
  split; [reflexivity |]. split; [reflexivity |].
  split; [discriminate |]. split; [reflexivity |].
  intros U.
  refine (U service.Service example_index example_session_New example_process
            {| Name_Name := "election" |} [service.client] led_by_A
            _ _ _ _ _ _ _ _ eq_refl);
    reflexivity.
Qed.

(** C10: two instances constructed in the same process return the same
    value from [Id], at any time, whatever the primitive names, the
    partitions, the sessions and the services they were built with. *)
Theorem instances_of_one_process_share_identity :
  forall (Σ1 Σ2 : Type) GetPartitionIndex1 session_New1
         GetPartitionIndex2 session_New2 proc name1 name2
         partitions1 partitions2 (σ1 σ1' : Σ1) (σ2 σ2' : Σ2) e1 s1 e2 s2,
    New GetPartitionIndex1 session_New1 proc name1 partitions1 σ1
      = (Built e1 s1, σ1') ->
    New GetPartitionIndex2 session_New2 proc name2 partitions2 σ2
      = (Built e2 s2, σ2') ->
    forall cmds1 cmds2 : list Command,
      (Id (run cmds1 (world_of e1 s1 σ1'))).1
      = (Id (run cmds2 (world_of e2 s2 σ2'))).1.
Proof.
  intros Σ1 Σ2 gpi1 snew1 gpi2 snew2 proc name1 name2 parts1 parts2
         σ1 σ1' σ2 σ2' e1 s1 e2 s2 H1 H2 cmds1 cmds2.
  apply New_Built in H1, H2.
  unfold_op. rewrite !run_self. cbn. congruence.
Qed.

Lemma instances_of_one_process_share_identity_witness :
  (Id (run [Call OpEnter; Call OpLeave] (world_of example_election
          {| session.id := 2; session.sequence := 0; session.index := 2;
             session.offsets := ∅ |}
          (service.committed (service.current led_by_A) led_by_A)))).1
  = (Id (run [] (world_of
          {| name := {| Name_Name := "leaders" |}; client := service.client;
             id := "Tm9kZUlE" |}
          {| session.id := 3; session.sequence := 0; session.index := 3;
             session.offsets := ∅ |}
          (service.committed (service.current led_by_A_before_B)
             led_by_A_before_B)))).1.
Proof.
  refine (instances_of_one_process_share_identity _ _ _ _ _ _ _ _ _ _ _
            _ _ _ _ _ _ _ _
            (eq_refl : example_New "election" led_by_A = (Built _ _, _))
            (eq_refl : example_New "leaders" led_by_A_before_B = (Built _ _, _))
            _ _).
Defined.

(** * Further properties *)

(** ** Runs of calls *)

Lemma length_filter_cons {A : Type} (f : A -> bool) (x : A) (l : list A) :
  length (filter f (x :: l))
  = ((if f x then 1 else 0) + length (filter f l))%nat.
Proof. rewrite filter_cons. destruct (f x); reflexivity. Qed.

Lemma step_session {Σ : Type} (cmd : Command) (w : World Σ) :
  session.id (sess (step cmd w)) = session.id (sess w) /\
  session.sequence (sess (step cmd w))
    = session.sequence (sess w) + (if advances cmd then 1 else 0) /\
  session.index (sess w) <= session.index (sess (step cmd w)) /\
  forall k : N,
    default 0 (session.offsets (sess w) !! k)
    <= default 0 (session.offsets (sess (step cmd w)) !! k).
Proof.
  destruct cmd as [op | | c]; [destruct op | |]; unfold_op;
    try client_cases; cbn;
    repeat split; try lia; try reflexivity;
    try (intros k; reflexivity);
    apply UpdateHeader_forward.
Qed.

(** X1: over any sequence of calls on an instance the session's sequence
    number grows by exactly the number of Enter, Leave, Anoint, Promote,
    Evict and Listen calls among them, whether they succeed or fail;
    GetTerm and Id leave it alone. *)
Theorem run_advances_sequence {Σ : Type} (cmds : list Command) (w : World Σ) :
  session.sequence (sess (run cmds w))
  = session.sequence (sess w) + N.of_nat (length (filter advances cmds)).
Proof.
  revert w. induction cmds as [| cmd cmds IH]; intros w.
  - cbn. lia.
  - change (run (cmd :: cmds) w) with (run cmds (step cmd w)).
    rewrite IH. destruct (step_session cmd w) as (_ & -> & _).
    rewrite length_filter_cons. destruct (advances cmd); lia.
Qed.

(** X3: over any sequence of calls the session keeps its identity, and its
    sequence number, index and stream offsets never go back. *)
Theorem run_keeps_session_forward {Σ : Type} (cmds : list Command) (w : World Σ) :
  session.id (sess (run cmds w)) = session.id (sess w) /\
  session.sequence (sess w) <= session.sequence (sess (run cmds w)) /\
  session.index (sess w) <= session.index (sess (run cmds w)) /\
  forall k : N,
    default 0 (session.offsets (sess w) !! k)
    <= default 0 (session.offsets (sess (run cmds w)) !! k).
Proof.
  revert w. induction cmds as [| cmd cmds IH]; intros w.
  - cbn. repeat split; lia.
  - change (run (cmd :: cmds) w) with (run cmds (step cmd w)).
    destruct (IH (step cmd w)) as (Hid & Hseq & Hidx & Hoff).
    destruct (step_session cmd w) as (Hid' & Hseq' & Hidx' & Hoff').
    split; [congruence |]. split; [| split].
    + rewrite Hseq' in Hseq. destruct (advances cmd); lia.
    + lia.
    + intros k. specialize (Hoff k). specialize (Hoff' k). lia.
Qed.

Lemma step_wire {Σ : Type} (cmd : Command) (w : World Σ) :
  exists sent : list Rpc,
    wire (step cmd w) = wire w ++ sent /\
    length sent = (if calls_service cmd then 1 else 0)%nat /\
    seqno <$> filter mutating_rpc sent
    = consecutive (session.sequence (sess w)) (if advances cmd then 1 else 0).
Proof.
  destruct cmd as [op | | c]; [destruct op | |]; unfold_op;
    try client_cases; cbn;
    first [ exists []; rewrite app_nil_r; repeat split; reflexivity
          | eexists [_]; repeat split; reflexivity ].
Qed.

Lemma consecutive_app (s : N) (n m : nat) :
  consecutive s (n + m) = consecutive s n ++ consecutive (s + N.of_nat n) m.
Proof.
  revert s. induction n as [| n IH]; intros s; cbn [consecutive Nat.add].
  - cbn. f_equal. lia.
  - rewrite IH. cbn. do 3 f_equal. lia.
Qed.

(** X2: over any sequence of calls every call but Id sends exactly one
    request, in call order, and the requests other than GetLeadership carry
    the sequence numbers s+1, s+2, ... without gap or repeat, s being the
    session's sequence number before the first call. *)
Theorem run_sends_consecutive_sequence_numbers {Σ : Type}
    (cmds : list Command) (w : World Σ) :
  exists sent : list Rpc,
    wire (run cmds w) = wire w ++ sent /\
    length sent = length (filter calls_service cmds) /\
    seqno <$> filter mutating_rpc sent
    = consecutive (session.sequence (sess w)) (length (filter advances cmds)).
Proof.
  revert w. induction cmds as [| cmd cmds IH]; intros w.
  - exists []. cbn. now rewrite app_nil_r.
  - change (run (cmd :: cmds) w) with (run cmds (step cmd w)).
    destruct (IH (step cmd w)) as (sent2 & Hw2 & Hl2 & Hs2).
    destruct (step_wire cmd w) as (sent1 & Hw1 & Hl1 & Hs1).
    destruct (step_session cmd w) as (_ & Hseq & _).
    exists (sent1 ++ sent2). split; [| split].
    + rewrite Hw2, Hw1. now rewrite app_assoc.
    + now rewrite length_app, Hl1, Hl2, length_filter_cons.
    + rewrite filter_app, fmap_app, Hs1, Hs2, Hseq, length_filter_cons.
      rewrite consecutive_app. do 2 f_equal.
      destruct (advances cmd); reflexivity.
Qed.

(** X12: [Name] returns the name the instance was constructed with, after
    any sequence of calls. *)
Theorem Name_is_the_name_given {Σ : Type} GetPartitionIndex session_New proc
    nm partitions (σ σ' : Σ) e s (cmds : list Command) :
  New GetPartitionIndex session_New proc nm partitions σ = (Built e s, σ') ->
  (Name' (run cmds (world_of e s σ'))).1 = nm.
Proof.
  intros H. cbv [Name' receiver mbind mret M_bind M_ret]. cbn.
  rewrite run_self. cbn.
  unfold New in H.
  destruct (GetPartitionIndex _ _) as [i | err]; [| discriminate].
  destruct (partitions !! i) as [cl |]; [| discriminate].
  destruct (session_New nm cl σ) as [[s0 | err] σ0]; [| discriminate].
  injection H as <- _ _. reflexivity.
Qed.

Lemma Name_is_the_name_given_witness :
  (Name' (run [Call OpEnter; Call OpLeave]
            (world_of example_election opened_session after_open))).1
  = {| Name_Name := "election" |}.
Proof.
  exact (Name_is_the_name_given example_index example_session_New
           example_process {| Name_Name := "election" |} [service.client]
           led_by_A after_open example_election opened_session
           [Call OpEnter; Call OpLeave] eq_refl).
Defined.

Lemma step_spawned {Σ : Type} (cmd : Command) (w : World Σ) :
  exists gs : list Goroutine,
    spawned (step cmd w) = spawned w ++ gs /\
    sublist (task_chan <$> gs) (from_option (fun c => [c]) [] (listen_chan cmd)).
Proof.
  destruct cmd as [op | | c]; [destruct op | |]; unfold_op;
    try client_cases; cbn;
    first [ exists []; rewrite app_nil_r; split; [reflexivity | apply sublist_nil_l]
          | eexists [_]; split; [reflexivity | cbn; reflexivity] ].
Qed.

(** X4: goroutines are started by [Listen] only: over any sequence of calls
    the goroutines started are bound, in order, to channels handed to
    [Listen] calls of that sequence, at most one per call. *)
Theorem goroutines_only_from_Listen {Σ : Type}
    (cmds : list Command) (w : World Σ) :
  exists gs : list Goroutine,
    spawned (run cmds w) = spawned w ++ gs /\
    sublist (task_chan <$> gs) (omap listen_chan cmds).
Proof.
  revert w. induction cmds as [| cmd cmds IH]; intros w.
  - exists []. cbn. now rewrite app_nil_r.
  - change (run (cmd :: cmds) w) with (run cmds (step cmd w)).
    destruct (IH (step cmd w)) as (gs2 & H2 & S2).
    destruct (step_spawned cmd w) as (gs1 & H1 & S1).
    exists (gs1 ++ gs2). split.
    + rewrite H2, H1. now rewrite app_assoc.
    + rewrite fmap_app.
      replace (omap listen_chan (cmd :: cmds))
        with (from_option (fun c => [c]) [] (listen_chan cmd)
              ++ omap listen_chan cmds)
        by (cbn; destruct (listen_chan cmd); reflexivity).
      now apply sublist_app.
Qed.

(** X5: [Listen] returns nil exactly when the subscribe call has opened a
    stream, and then one goroutine has been started on that stream and the
    caller's channel; when the call fails [Listen] returns its error and
    starts nothing.  Either way the session has only been asked for the next
    header. *)
Theorem Listen_returns_after_subscribe {Σ : Type} (w : World Σ) (c : N) :
  let request := {| EventRequest.Header := (session.NextHeader (sess w)).1 |} in
  match (Listen c w).1 with
  | None =>
      exists events σ',
        pb.Events (client (self w)) request (remote w) = (inl events, σ') /\
        spawned (Listen c w).2
          = spawned w ++ [ {| task_events := events; task_chan := c |} ]
  | Some err =>
      (exists σ',
         pb.Events (client (self w)) request (remote w) = (inr err, σ')) /\
      spawned (Listen c w).2 = spawned w
  end /\
  sess (Listen c w).2 = (session.NextHeader (sess w)).2.
Proof. unfold_op. client_cases; cbn; eauto. Qed.

(** ** Results of the calls *)

(** X6: [GetTerm] and [Enter] return a term exactly when they return no
    error: the result is either the term made of the response's term,
    leader and candidates with a nil error, or a nil term with the error of
    the call; never both, never neither. *)
Theorem term_exactly_without_error {Σ : Type} (w : World Σ) :
  match (GetTerm w).1 with
  | (Some t, None) =>
      exists response σ',
        pb.GetLeadership (client (self w))
          {| GetLeadershipRequest.Header := session.GetHeader (sess w) |}
          (remote w) = (inl response, σ') /\
        t = {| Term_Term := GetLeadershipResponse.Term response;
               Term_Leader := GetLeadershipResponse.Leader response;
               Term_Candidates := GetLeadershipResponse.Candidates response |}
  | (None, Some err) =>
      exists σ',
        pb.GetLeadership (client (self w))
          {| GetLeadershipRequest.Header := session.GetHeader (sess w) |}
          (remote w) = (inr err, σ')
  | _ => False
  end /\
  match (Enter w).1 with
  | (Some t, None) =>
      exists response σ',
        pb.Enter (client (self w))
          {| EnterRequest.Header := (session.NextHeader (sess w)).1;
             EnterRequest.CandidateId := id (self w) |}
          (remote w) = (inl response, σ') /\
        t = {| Term_Term := EnterResponse.Term response;
               Term_Leader := EnterResponse.Leader response;
               Term_Candidates := EnterResponse.Candidates response |}
  | (None, Some err) =>
      exists σ',
        pb.Enter (client (self w))
          {| EnterRequest.Header := (session.NextHeader (sess w)).1;
             EnterRequest.CandidateId := id (self w) |}
          (remote w) = (inr err, σ')
  | _ => False
  end.
Proof.
  split; unfold_op; client_cases; cbn; eauto.
Qed.

(** ** The constructor *)

(** X7: with an empty list of partitions [New] never builds an instance:
    it fails with the error of [GetPartitionIndex], or panics on the index
    it was given; no session is opened and the service is not touched. *)
Theorem New_without_partitions {Σ : Type} GetPartitionIndex session_New proc
    nm (σ : Σ) :
  (New GetPartitionIndex session_New proc nm [] σ).2 = σ /\
  match (New GetPartitionIndex session_New proc nm [] σ).1 with
  | Built _ _ => False
  | Failed err => GetPartitionIndex (Name_Name nm) 0%nat = inr err
  | IndexOutOfRange => exists i, GetPartitionIndex (Name_Name nm) 0%nat = inl i
  end.
Proof.
  unfold New. cbn.
  destruct (GetPartitionIndex (Name_Name nm) 0%nat) as [i | err];
    rewrite ?lookup_nil; cbn; eauto.
Qed.

(** X8: an error returned by [New] is the error of [GetPartitionIndex], and
    then nothing else has happened, or the error of [session.New] for the
    chosen partition. *)
Theorem New_errors_surface {Σ : Type} GetPartitionIndex session_New proc
    nm partitions (σ σ' : Σ) (err : error) :
  New GetPartitionIndex session_New proc nm partitions σ = (Failed err, σ') ->
  (GetPartitionIndex (Name_Name nm) (length partitions) = inr err /\ σ' = σ) \/
  (exists i cl,
     GetPartitionIndex (Name_Name nm) (length partitions) = inl i /\
     partitions !! i = Some cl /\
     session_New nm cl σ = (inr err, σ')).
Proof.
  unfold New. intros H.
  destruct (GetPartitionIndex _ _) as [i | e0].
  - destruct (partitions !! i) as [cl |] eqn:Hcl; [| discriminate].
    destruct (session_New nm cl σ) as [[s0 | e1] σ0] eqn:Hs; [discriminate |].
    injection H as -> ->. right. eauto.
  - injection H as -> ->. left. auto.
Qed.

Lemma New_errors_surface_witness :
  New example_index example_session_New example_process
      {| Name_Name := "election" |} [] led_by_A
  = (Failed (rpc_error "no partitions"), led_by_A) /\
  ((example_index "election" 0 = inr (rpc_error "no partitions") /\
    led_by_A = led_by_A) \/
   (exists i cl,
      example_index "election" 0 = inl i /\
      ([] : list (pb.LeaderElectionServiceClient service.Service)) !! i = Some cl /\
      example_session_New {| Name_Name := "election" |} cl led_by_A
      = (inr (rpc_error "no partitions"), led_by_A))).
Proof.
  split; [reflexivity |].
  exact (New_errors_surface example_index example_session_New example_process
           {| Name_Name := "election" |} [] led_by_A led_by_A
           (rpc_error "no partitions") eq_refl).
Defined.

(** X9: an instance built by [New] has the name it was given, its client is
    the partition at the index [GetPartitionIndex] returned for that name
    and the number of partitions, that index is in range, and its session
    is the one [session.New] opened on that client. *)
Theorem New_builds_on_chosen_partition {Σ : Type} GetPartitionIndex session_New
    proc nm partitions (σ σ' : Σ) e s :
  New GetPartitionIndex session_New proc nm partitions σ = (Built e s, σ') ->
  name e = nm /\
  exists i : nat,
    GetPartitionIndex (Name_Name nm) (length partitions) = inl i /\
    (i < length partitions)%nat /\
    partitions !! i = Some (client e) /\
    session_New nm (client e) σ = (inl s, σ').
Proof.
  unfold New. intros H.
  destruct (GetPartitionIndex _ _) as [i | e0]; [| discriminate].
  destruct (partitions !! i) as [cl |] eqn:Hcl; [| discriminate].
  destruct (session_New nm cl σ) as [[s0 | e1] σ0] eqn:Hs; [| discriminate].
  injection H as <- <- <-. cbn. split; [reflexivity |].
  exists i. repeat split; auto.
  now apply lookup_lt_Some in Hcl.
Qed.

Lemma New_builds_on_chosen_partition_witness :
  name example_election = {| Name_Name := "election" |}.
Proof.
  exact (proj1 (New_builds_on_chosen_partition example_index example_session_New
                  example_process {| Name_Name := "election" |} [service.client]
                  led_by_A after_open example_election opened_session eq_refl)).
Defined.

(** X10: [New] does not check the index it gets: an index at or beyond the
    number of partitions makes [partitions[i]] panic, before any session is
    opened. *)
Theorem New_index_out_of_range {Σ : Type} GetPartitionIndex session_New proc
    nm partitions (σ : Σ) (i : nat) :
  GetPartitionIndex (Name_Name nm) (length partitions) = inl i ->
  (length partitions <= i)%nat ->
  New GetPartitionIndex session_New proc nm partitions σ = (IndexOutOfRange, σ).
Proof.
  intros H Hi. unfold New. rewrite H.
  now rewrite (lookup_ge_None_2 partitions i Hi).
Qed.

Lemma New_index_out_of_range_witness :
  New (fun _ _ => inl 3%nat) example_session_New example_process
      {| Name_Name := "election" |} [service.client] led_by_A
  = (IndexOutOfRange, led_by_A).
Proof.
  apply (New_index_out_of_range (fun _ _ => inl 3%nat) example_session_New
           example_process {| Name_Name := "election" |} [service.client]
           led_by_A 3%nat eq_refl).
  cbn. lia.
Defined.

(** ** The identity's length *)

Lemma EncodeToString_length (src : list byte) :
  String.length (base64.EncodeToString src)
  = (4 * ((length src + 2) / 3))%nat.
Proof.
  induction src as [| a | a b | a b c rest IH] using list_ind3;
    try reflexivity.
  cbn [base64.EncodeToString String.length length]. rewrite IH.
  replace (S (S (S (length rest))) + 2)%nat
    with ((length rest + 2) + 1 * 3)%nat by lia.
  rewrite Nat.div_add by lia. lia.
Qed.

Lemma EncodeToString_unpadded (src : list byte) :
  (length src mod 3 = 0)%nat ->
  Forall (fun c => c <> base64.StdPadding)
         (list_ascii_of_string (base64.EncodeToString src)).
Proof.
  induction src as [| a | a b | a b c rest IH] using list_ind3; intros Hlen.
  - constructor.
  - discriminate Hlen.
  - discriminate Hlen.
  - cbn [base64.EncodeToString list_ascii_of_string].
    repeat (constructor;
            [apply encode_char_not_padding, sextet_range |]).
    apply IH.
    cbn [length] in Hlen.
    replace (S (S (S (length rest)))) with (length rest + 1 * 3)%nat in Hlen
      by lia.
    now rewrite Nat.Div0.mod_add in Hlen.
Qed.

(** X11: the identity of a built instance has four characters for every
    three bytes of the node identifier, rounded up; when the number of bytes
    is a multiple of three (six for a node identifier) none of them is the
    padding character. *)
Theorem identity_length {Σ : Type} GetPartitionIndex session_New proc
    nm partitions (σ σ' : Σ) e s :
  New GetPartitionIndex session_New proc nm partitions σ = (Built e s, σ') ->
  String.length (id e) = (4 * ((length (uuid_NodeID proc) + 2) / 3))%nat /\
  ((length (uuid_NodeID proc) mod 3 = 0)%nat ->
   Forall (fun c => c <> base64.StdPadding) (list_ascii_of_string (id e))).
Proof.
  intros H. apply New_Built in H. rewrite H.
  split; [apply EncodeToString_length | apply EncodeToString_unpadded].
Qed.

Lemma identity_length_witness :
  String.length (id example_election) = 8%nat.
Proof.
  exact (proj1 (identity_length example_index example_session_New
                  example_process {| Name_Name := "election" |} [service.client]
                  led_by_A after_open example_election opened_session eq_refl)).
Defined.

(** ** Runs of the goroutine *)

(** X13: at [io.EOF] the loop is left at once: the response that comes
    with it is not looked at, nothing is sent or logged, and no message
    after it is received. *)
Theorem end_of_stream_stops_listener
    (pre post : list Arrival) (a : Arrival) (st st1 : ListenerState) :
  listen_loop pre st = (Receiving, st1) ->
  recv_err (arrives a) = Some io_EOF ->
  listen_loop (pre ++ a :: post) st
  = (Done, {| chan := chan st1; trace := trace st1 ++ [ARecv (arrives a)] |}).
Proof.
  intros Hpre Heof.
  rewrite (listen_loop_app _ _ _ _ Hpre). cbn.
  unfold listen_turn. rewrite Heof. reflexivity.
Qed.

Lemma end_of_stream_stops_listener_witness :
  listen_loop ([received (changed 1 "A" ["A"]) true]
               ++ end_of_stream :: [received (changed 2 "A" ["A"; "B"]) true])
              started
  = (Done,
     {| chan := {| queue := [event_of (changed 1 "A" ["A"])]; closed := false |};
        trace := [ARecv (arrives (received (changed 1 "A" ["A"]) true));
                  ASend (event_of (changed 1 "A" ["A"]))]
                 ++ [ARecv (arrives end_of_stream)] |}).
Proof.
  exact (end_of_stream_stops_listener
           [received (changed 1 "A" ["A"]) true]
           [received (changed 2 "A" ["A"; "B"]) true]
           end_of_stream started _ eq_refl eq_refl).
Defined.






(** X16: every event on the channel after a run was there before or is the
    event of a response that [Recv] returned, without [io.EOF], during the
    run. *)
Theorem sent_events_come_from_responses
    (sched : list Arrival) (st : ListenerState) (ev : ElectionEvent) :
  ev ∈ queue (chan (listen_loop sched st).2) ->
  ev ∈ queue (chan st) \/
  exists (a : Arrival) (response : EventResponse.t),
    a ∈ sched /\ recv_response (arrives a) = Some response /\
    recv_err (arrives a) <> Some io_EOF /\
    ev = event_of response.
Proof.
  revert st. induction sched as [| a sched IH]; intros st Hin; cbn in *.
  - auto.
  - assert (Hturn : ev ∈ queue (chan (listen_turn a st).2) ->
              ev ∈ queue (chan st) \/
              exists response, recv_response (arrives a) = Some response /\
                recv_err (arrives a) <> Some io_EOF /\ ev = event_of response).
    { unfold listen_turn, deliver, record, chan_send. cbn.
      destruct (recv_err (arrives a)) as [[| msg] |];
        destruct (recv_response (arrives a)) as [response |]; cbn; auto;
        destruct (streams (EventResponse.Header response)); cbn;
        try destruct (signal a); cbn; auto;
        destruct (closed (chan st)); cbn; auto;
        intros [H | H%list_elem_of_singleton]%elem_of_app; auto;
        right; exists response; repeat split; auto; discriminate. }
    destruct (listen_turn a st) as [[ | | ] st'] eqn:E; cbn in *.
    + destruct (Hturn Hin) as [H | (r & H1 & H2 & H3)]; auto.
      right. exists a, r. repeat split; auto. constructor.
    + destruct (IH st' Hin) as [H | (a' & r & H0 & H1 & H2 & H3)].
      * destruct (Hturn H) as [H' | (r & H1 & H2 & H3)]; auto.
        right. exists a, r. repeat split; auto. constructor.
      * right. exists a', r. repeat split; auto. now constructor.
    + destruct (Hturn Hin) as [H | (r & H1 & H2 & H3)]; auto.
      right. exists a, r. repeat split; auto. constructor.
Qed.

Lemma sent_events_come_from_responses_witness :
  event_of (changed 1 "A" ["A"]) ∈ queue (chan started) \/
  exists (a : Arrival) (response : EventResponse.t),
    a ∈ [received (changed 1 "A" ["A"]) true] /\
    recv_response (arrives a) = Some response /\
    recv_err (arrives a) <> Some io_EOF /\
    event_of (changed 1 "A" ["A"]) = event_of response.
Proof.
  apply (sent_events_come_from_responses
           [received (changed 1 "A" ["A"]) true] started).
  cbn. apply list_elem_of_singleton. reflexivity.
Defined.

Lemma listen_turn_closed (a : Arrival) (st : ListenerState) :
  closed (chan st) = true ->
  chan (listen_turn a st).2 = chan st /\
  (forall ev, deliverable a = Some ev -> (listen_turn a st).1 = Panic).
Proof.
  intros Hc. unfold listen_turn, deliver, record, chan_send, deliverable. cbn.
  rewrite Hc.
  destruct (recv_err (arrives a)) as [[| msg] |];
    destruct (recv_response (arrives a)) as [response |]; cbn;
    try (split; [reflexivity | discriminate]);
    destruct (streams (EventResponse.Header response)); cbn;
    try destruct (signal a); cbn;
    (split; [reflexivity | first [discriminate | reflexivity]]).
Qed.

(** X17: on a channel the caller has closed nothing is delivered, and the
    goroutine panics at the first message whose event it would send. *)
Theorem closed_channel_makes_listener_panic
    (sched : list Arrival) (st : ListenerState) :
  closed (chan st) = true ->
  chan (listen_loop sched st).2 = chan st /\
  forall (pre post : list Arrival) (a : Arrival) (st1 : ListenerState)
         (ev : ElectionEvent),
    sched = pre ++ a :: post ->
    listen_loop pre st = (Receiving, st1) ->
    deliverable a = Some ev ->
    (listen_loop sched st).1 = Panicked.
Proof.
  intros Hc.
  assert (Hchan : forall sched st, closed (chan st) = true ->
            chan (listen_loop sched st).2 = chan st).
  { clear. intros sched. induction sched as [| a sched IH]; intros st Hc; cbn.
    - reflexivity.
    - destruct (listen_turn_closed a st Hc) as [Ht _].
      destruct (listen_turn a st) as [[ | | ] st']; cbn in *; auto.
      rewrite IH; [exact Ht | now rewrite Ht]. }
  split; [now apply Hchan |].
  intros pre post a st1 ev -> Hpre Hev.
  rewrite (listen_loop_app _ _ _ _ Hpre). cbn.
  assert (Hc1 : closed (chan st1) = true).
  { pose proof (Hchan pre st Hc) as H. rewrite Hpre in H. cbn in H.
    now rewrite H. }
  destruct (listen_turn_closed a st1 Hc1) as [_ Hp]. specialize (Hp ev Hev).
  destruct (listen_turn a st1) as [t st2]. cbn in Hp. now subst t.
Qed.

Lemma closed_channel_makes_listener_panic_witness :
  chan (listen_loop [received (changed 1 "A" ["A"]) true] stopped).2
  = chan stopped.
Proof.
  exact (proj1 (closed_channel_makes_listener_panic
                  [received (changed 1 "A" ["A"]) true] stopped eq_refl)).
Defined.

(** X18: in a run that is still receiving, what has been logged is exactly
    the errors that [Recv] returned, in order; messages, waits and sends
    are not logged. *)
Theorem listener_logs_receive_errors
    (sched : list Arrival) (st : ListenerState) :
  (listen_loop sched st).1 = Receiving ->
  logged (trace (listen_loop sched st).2)
  = logged (trace st) ++ omap (fun a => recv_err (arrives a)) sched.
Proof.
  revert st. induction sched as [| a sched IH]; intros st Ho; cbn in *.
  - now rewrite app_nil_r.
  - assert (Hturn : (listen_turn a st).1 = Continue ->
              logged (trace (listen_turn a st).2)
              = logged (trace st) ++ from_option (fun e => [e]) [] (recv_err (arrives a))).
    { unfold listen_turn, deliver, record, chan_send, logged. cbn.
      destruct (recv_err (arrives a)) as [[| msg] |];
        destruct (recv_response (arrives a)) as [response |]; cbn;
        try discriminate;
        destruct (streams (EventResponse.Header response)); cbn;
        try destruct (signal a); cbn;
        destruct (closed (chan st)); cbn; try discriminate; intros _;
        rewrite ?omap_app; cbn; rewrite <- ?app_assoc, ?app_nil_r;
        reflexivity. }
    destruct (listen_turn a st) as [[ | | ] st'] eqn:E; cbn in *;
      try discriminate.
    rewrite (IH st' Ho), (Hturn eq_refl).
    destruct (recv_err (arrives a)); cbn; now rewrite <- ?app_assoc, ?app_nil_r.
Qed.

Lemma listener_logs_receive_errors_witness :
  logged (trace (listen_loop
                   [ {| arrives := {| recv_response := Some (changed 1 "A" ["A"]);
                                      recv_err := Some transport_failure |};
                        signal := true |};
                     received (changed 2 "A" ["A"; "B"]) true ] started).2)
  = [transport_failure].
Proof.
  exact (listener_logs_receive_errors
           [ {| arrives := {| recv_response := Some (changed 1 "A" ["A"]);
                              recv_err := Some transport_failure |};
                signal := true |};
             received (changed 2 "A" ["A"; "B"]) true ] started eq_refl).
Defined.
